(** * Audio particle system: the particle engine of [src/js/particle-system.js]

    A shallow embedding of the classes [Particle], [SpatialHash] and
    [ParticleSystem], with the properties the specification states about them.

    Numbers.  JavaScript numbers are modelled as exact rationals ([Qc], the
    canonical rationals, so that equal numbers are equal terms): every
    operation is the rounding-free version of the IEEE operation the engine
    runs, and [x / 0] is [0] where the engine would produce an infinity or a
    NaN (the statements that divide carry the hypothesis that excludes it).

    Host.  [Math.random], [Math.sqrt], [Math.sin], [Math.cos] and [Math.PI]
    belong to the JavaScript host, not to the repository; they are fields of a
    record [Host] over which the engine is parameterised.  [Math.random] is a
    tape of draws, read through a cursor that the spawning code threads. *)

From Stdlib Require Import QArith Qcanon Qround ZArith Lia Lqa.
From stdpp Require Import base tactics decidable option numbers list strings gmap.

Local Open Scope Qc_scope.

(** ** Numbers *)

(** The decimal literal [n / d], e.g. [frac 1 100] for [0.01]. *)
Definition frac (n : Z) (d : positive) : Qc := Q2Qc (n # d).

(** [Math.max] and [Math.min] on two numbers. *)
Definition Math_max (a b : Qc) : Qc := if decide (a < b) then b else a.
Definition Math_min (a b : Qc) : Qc := if decide (b < a) then b else a.

(** [Math.floor] and [Math.ceil], as integers. *)
Definition Math_floor (a : Qc) : Z := Qfloor a.
Definition Math_ceil (a : Qc) : Z := Qceiling a.

(** Truncation toward zero and the remainder operator [a % b], whose result
    has the sign of the dividend [a]. *)
Definition trunc (a : Qc) : Z := Z.quot (Qnum a) (Z.pos (Qden a)).
Definition js_rem (a b : Qc) : Qc := a - b * Qc_of_Z (trunc (a / b)).

(** The number of iterations of [for (let i = 0; i < m; i++)] for a number
    [m]: the naturals below [m]. *)
Definition loop_bound (m : Qc) : nat := Z.to_nat (Math_ceil m).

(** [array[i]] for a numeric array, [0] standing for a read out of range. *)
Definition band (b : list Qc) (i : nat) : Qc := default 0 (b !! i).

(** ** The host *)

Record Host := mkHost {
  Math_random : nat -> Qc;
  Math_sqrt : Qc -> Qc;
  Math_sin : Qc -> Qc;
  Math_cos : Qc -> Qc;
  Math_PI : Qc
}.

(** Code that calls [Math.random]: a state monad over the cursor into the
    tape of draws. *)
Definition Rand (A : Type) : Type := nat -> A * nat.

#[global] Instance rand_ret : MRet Rand := fun A a n => (a, n).
#[global] Instance rand_bind : MBind Rand :=
  fun A B k m n => let (a, n') := m n in k a n'.

(** [Math.random()] *)
Definition random (H : Host) : Rand Qc := fun n => (Math_random H n, S n).

(** ** class Particle *)

Module Particle.

Record t := mk {
  x : Qc; y : Qc;
  vx : Qc; vy : Qc;
  ax : Qc; ay : Qc;
  size : Qc;
  life : Qc; maxLife : Qc;
  hue : Qc; saturation : Qc; lightness : Qc;
  alpha : Qc;
  active : bool;
  mass : Qc;
  angle : Qc; angularVelocity : Qc
}.

(** [constructor()] *)
Definition new : t :=
  {| x := 0; y := 0; vx := 0; vy := 0; ax := 0; ay := 0;
     size := 2; life := 1; maxLife := 1;
     hue := 0; saturation := frac 100 1; lightness := frac 50 1;
     alpha := 1; active := false; mass := 1;
     angle := 0; angularVelocity := 0 |}.

(** [init(x, y, vx, vy, size, life, hue)]: every field is assigned, so the
    result does not depend on the previous content of the slot. *)
Definition init (H : Host) (x0 y0 vx0 vy0 size0 life0 hue0 : Qc) : Rand t :=
  r1 ← random H;
  r2 ← random H;
  mret {| x := x0; y := y0; vx := vx0; vy := vy0; ax := 0; ay := 0;
         size := size0; life := life0; maxLife := life0;
         hue := hue0; saturation := frac 100 1; lightness := frac 50 1;
         alpha := 1; active := true; mass := size0 * frac 1 10;
         angle := r1 * Math_PI H * 2;
         angularVelocity := (r2 - frac 1 2) * frac 1 10 |}.

(** [update(width, height, deltaTime)] *)
Definition update (width height deltaTime : Qc) (p : t) : t :=
  if negb (active p) then p else
  let vx1 := vx p + ax p * deltaTime in
  let vy1 := vy p + ay p * deltaTime in
  let x1 := x p + vx1 * deltaTime in
  let y1 := y p + vy1 * deltaTime in
  let angle1 := angle p + angularVelocity p * deltaTime in
  let life1 := life p - frac 1 100 * deltaTime in
  let alpha1 := Math_max 0 (life1 / maxLife p) in
  {| x := x1; y := y1; vx := vx1; vy := vy1; ax := 0; ay := 0;
     size := size p; life := life1; maxLife := maxLife p;
     hue := hue p; saturation := saturation p; lightness := lightness p;
     alpha := alpha1;
     active := if decide (life1 <= 0) then false else active p;
     mass := mass p;
     angle := angle1; angularVelocity := angularVelocity p |}.

(** [applyForce(fx, fy)] *)
Definition applyForce (fx fy : Qc) (p : t) : t :=
  {| x := x p; y := y p; vx := vx p; vy := vy p;
     ax := ax p + fx / mass p; ay := ay p + fy / mass p;
     size := size p; life := life p; maxLife := maxLife p;
     hue := hue p; saturation := saturation p; lightness := lightness p;
     alpha := alpha p; active := active p; mass := mass p;
     angle := angle p; angularVelocity := angularVelocity p |}.

(** Assignment to the position and velocity fields, the only ones the
    boundary handlers write. *)
Definition set_x_vx (x' vx' : Qc) (p : t) : t :=
  {| x := x'; y := y p; vx := vx'; vy := vy p; ax := ax p; ay := ay p;
     size := size p; life := life p; maxLife := maxLife p;
     hue := hue p; saturation := saturation p; lightness := lightness p;
     alpha := alpha p; active := active p; mass := mass p;
     angle := angle p; angularVelocity := angularVelocity p |}.

Definition set_y_vy (y' vy' : Qc) (p : t) : t :=
  {| x := x p; y := y'; vx := vx p; vy := vy'; ax := ax p; ay := ay p;
     size := size p; life := life p; maxLife := maxLife p;
     hue := hue p; saturation := saturation p; lightness := lightness p;
     alpha := alpha p; active := active p; mass := mass p;
     angle := angle p; angularVelocity := angularVelocity p |}.

(** [bounce(width, height, damping)] *)
Definition bounce (width height damping : Qc) (p : t) : t :=
  let p1 :=
    if decide (x p < 0) then set_x_vx 0 (vx p * - damping) p
    else if decide (width < x p) then set_x_vx width (vx p * - damping) p
    else p in
  if decide (y p1 < 0) then set_y_vy 0 (vy p1 * - damping) p1
  else if decide (height < y p1) then set_y_vy height (vy p1 * - damping) p1
  else p1.

(** [wrap(width, height)]: four independent tests, each reading the value
    the previous one may have written. *)
Definition wrap (width height : Qc) (p : t) : t :=
  let p1 := if decide (x p < 0) then set_x_vx width (vx p) p else p in
  let p2 := if decide (width < x p1) then set_x_vx 0 (vx p1) p1 else p1 in
  let p3 := if decide (y p2 < 0) then set_y_vy height (vy p2) p2 else p2 in
  if decide (height < y p3) then set_y_vy 0 (vy p3) p3 else p3.

End Particle.

(** ** class SpatialHash *)

Module SpatialHash.

(** The grid maps a cell to the particles inserted into it, in insertion
    order.  A cell key is the pair of cell coordinates (the source joins them
    in a string); a bucket holds references to pool slots, here their
    indices. *)
Record t := mk {
  cellSize : Qc;
  grid : gmap (Z * Z) (list nat)
}.

Definition new (cellSize : Qc) : t := {| cellSize := cellSize; grid := ∅ |}.

(** [getCellKey(x, y)] *)
Definition getCellKey (x y : Qc) (h : t) : Z * Z :=
  (Math_floor (x / cellSize h), Math_floor (y / cellSize h)).

(** [clear()] *)
Definition clear (h : t) : t := {| cellSize := cellSize h; grid := ∅ |}.

(** [insert(particle)], for the particle [p] stored in pool slot [i]. *)
Definition insert (i : nat) (p : Particle.t) (h : t) : t :=
  let key := getCellKey (Particle.x p) (Particle.y p) h in
  {| cellSize := cellSize h;
     grid := <[key := default [] (grid h !! key) ++ [i]]> (grid h) |}.

(** [getNearby(x, y, radius)] *)
Definition getNearby (x y radius : Qc) (h : t) : list nat :=
  let cellRadius := Math_ceil (radius / cellSize h) in
  let centerCellX := Math_floor (x / cellSize h) in
  let centerCellY := Math_floor (y / cellSize h) in
  let span := seqZ (- cellRadius) (2 * cellRadius + 1) in
  dx ← span; dy ← span;
  default [] (grid h !! ((centerCellX + dx)%Z, (centerCellY + dy)%Z)).

End SpatialHash.

(** ** class ParticleSystem *)

(** The three configuration objects of the engine. *)
Module Physics.
Record t := mk {
  mode : string;
  gravity : Qc; gravityX : Qc; gravityY : Qc;
  magnetismStrength : Qc; magnetX : Qc; magnetY : Qc;
  turbulenceStrength : Qc; turbulenceFrequency : Qc;
  orbitalCenterX : Qc; orbitalCenterY : Qc; orbitalStrength : Qc;
  damping : Qc;
  bounceEnabled : bool; wrapEnabled : bool
}.
End Physics.

Module Emission.
Record t := mk {
  rate : Qc;
  x : Qc; y : Qc;
  spread : Qc;
  velocityMin : Qc; velocityMax : Qc;
  sizeMin : Qc; sizeMax : Qc;
  lifeMin : Qc; lifeMax : Qc;
  hue : Qc; hueVariation : Qc
}.
End Emission.

Module AudioReactive.
Record t := mk {
  emissionMultiplier : Qc;
  sizeMultiplier : Qc;
  velocityMultiplier : Qc;
  hueShift : Qc
}.
End AudioReactive.

Module ParticleSystem.

Record t := mk {
  maxParticles : Qc;
  particles : list Particle.t;
  particlePool : list Particle.t;
  spatialHash : SpatialHash.t;
  physics : Physics.t;
  emission : Emission.t;
  audioReactive : AudioReactive.t;
  width : Qc; height : Qc;
  activeParticleCount : nat;
  time : nat
}.

(** [constructor(maxParticles)] *)
Definition new (maxParticles : Qc) : t :=
  {| maxParticles := maxParticles;
     particles := [];
     particlePool := replicate (loop_bound maxParticles) Particle.new;
     spatialHash := SpatialHash.new (frac 50 1);
     physics :=
       {| Physics.mode := "gravity";
          Physics.gravity := frac 1 10;
          Physics.gravityX := 0;
          Physics.gravityY := frac 1 10;
          Physics.magnetismStrength := frac 1 2;
          Physics.magnetX := 0;
          Physics.magnetY := 0;
          Physics.turbulenceStrength := frac 3 10;
          Physics.turbulenceFrequency := frac 1 100;
          Physics.orbitalCenterX := frac 1 2;
          Physics.orbitalCenterY := frac 1 2;
          Physics.orbitalStrength := frac 1 5;
          Physics.damping := frac 99 100;
          Physics.bounceEnabled := false;
          Physics.wrapEnabled := true |};
     emission :=
       {| Emission.rate := frac 10 1;
          Emission.x := frac 1 2;
          Emission.y := frac 1 2;
          Emission.spread := frac 1 5;
          Emission.velocityMin := 1;
          Emission.velocityMax := frac 3 1;
          Emission.sizeMin := 2;
          Emission.sizeMax := frac 6 1;
          Emission.lifeMin := frac 100 1;
          Emission.lifeMax := frac 200 1;
          Emission.hue := frac 200 1;
          Emission.hueVariation := frac 60 1 |};
     audioReactive :=
       {| AudioReactive.emissionMultiplier := 1;
          AudioReactive.sizeMultiplier := 1;
          AudioReactive.velocityMultiplier := 1;
          AudioReactive.hueShift := 0 |};
     width := frac 1920 1; height := frac 1080 1;
     activeParticleCount := 0;
     time := 0 |}.

(** Assignments to single fields of the engine. *)
Definition set_particlePool (pool : list Particle.t) (s : t) : t :=
  {| maxParticles := maxParticles s; particles := particles s;
     particlePool := pool; spatialHash := spatialHash s;
     physics := physics s; emission := emission s;
     audioReactive := audioReactive s;
     width := width s; height := height s;
     activeParticleCount := activeParticleCount s; time := time s |}.

Definition set_physics (ph : Physics.t) (s : t) : t :=
  {| maxParticles := maxParticles s; particles := particles s;
     particlePool := particlePool s; spatialHash := spatialHash s;
     physics := ph; emission := emission s;
     audioReactive := audioReactive s;
     width := width s; height := height s;
     activeParticleCount := activeParticleCount s; time := time s |}.

Definition set_emission (em : Emission.t) (s : t) : t :=
  {| maxParticles := maxParticles s; particles := particles s;
     particlePool := particlePool s; spatialHash := spatialHash s;
     physics := physics s; emission := em;
     audioReactive := audioReactive s;
     width := width s; height := height s;
     activeParticleCount := activeParticleCount s; time := time s |}.

Definition set_audioReactive (ar : AudioReactive.t) (s : t) : t :=
  {| maxParticles := maxParticles s; particles := particles s;
     particlePool := particlePool s; spatialHash := spatialHash s;
     physics := physics s; emission := emission s;
     audioReactive := ar;
     width := width s; height := height s;
     activeParticleCount := activeParticleCount s; time := time s |}.

Definition set_magnet (mx my : Qc) (ph : Physics.t) : Physics.t :=
  {| Physics.mode := Physics.mode ph;
     Physics.gravity := Physics.gravity ph;
     Physics.gravityX := Physics.gravityX ph;
     Physics.gravityY := Physics.gravityY ph;
     Physics.magnetismStrength := Physics.magnetismStrength ph;
     Physics.magnetX := mx;
     Physics.magnetY := my;
     Physics.turbulenceStrength := Physics.turbulenceStrength ph;
     Physics.turbulenceFrequency := Physics.turbulenceFrequency ph;
     Physics.orbitalCenterX := Physics.orbitalCenterX ph;
     Physics.orbitalCenterY := Physics.orbitalCenterY ph;
     Physics.orbitalStrength := Physics.orbitalStrength ph;
     Physics.damping := Physics.damping ph;
     Physics.bounceEnabled := Physics.bounceEnabled ph;
     Physics.wrapEnabled := Physics.wrapEnabled ph |}.

Definition set_mode (m : string) (ph : Physics.t) : Physics.t :=
  {| Physics.mode := m;
     Physics.gravity := Physics.gravity ph;
     Physics.gravityX := Physics.gravityX ph;
     Physics.gravityY := Physics.gravityY ph;
     Physics.magnetismStrength := Physics.magnetismStrength ph;
     Physics.magnetX := Physics.magnetX ph;
     Physics.magnetY := Physics.magnetY ph;
     Physics.turbulenceStrength := Physics.turbulenceStrength ph;
     Physics.turbulenceFrequency := Physics.turbulenceFrequency ph;
     Physics.orbitalCenterX := Physics.orbitalCenterX ph;
     Physics.orbitalCenterY := Physics.orbitalCenterY ph;
     Physics.orbitalStrength := Physics.orbitalStrength ph;
     Physics.damping := Physics.damping ph;
     Physics.bounceEnabled := Physics.bounceEnabled ph;
     Physics.wrapEnabled := Physics.wrapEnabled ph |}.

(** [setDimensions(width, height)] *)
Definition setDimensions (w h : Qc) (s : t) : t :=
  {| maxParticles := maxParticles s; particles := particles s;
     particlePool := particlePool s; spatialHash := spatialHash s;
     physics := set_magnet (w / 2) (h / 2) (physics s);
     emission := emission s; audioReactive := audioReactive s;
     width := w; height := h;
     activeParticleCount := activeParticleCount s; time := time s |}.

(** [getParticle()]: the first inactive slot of the pool, as its index;
    [None] is the source's [null]. *)
Definition getParticle (s : t) : option nat :=
  fst <$> list_find (λ p, Particle.active p = false) (particlePool s).

(** The body of the loop of [emit] once a free slot [i] is found: seven draws
    in the order of the source, then [particle.init], which writes slot [i]. *)
Definition spawn (H : Host) (audioEnergy : Qc) (i : nat) (s : t) : Rand t :=
  let em := emission s in
  let ar := audioReactive s in
  rx ← random H;
  let x := Emission.x em * width s
           + (rx - frac 1 2) * Emission.spread em * width s in
  ry ← random H;
  let y := Emission.y em * height s
           + (ry - frac 1 2) * Emission.spread em * height s in
  ra ← random H;
  let angle := ra * Math_PI H * 2 in
  rs ← random H;
  let speed := Emission.velocityMin em
               + rs * (Emission.velocityMax em - Emission.velocityMin em) in
  let speedMultiplier := 1 + audioEnergy * AudioReactive.velocityMultiplier ar in
  let vx := Math_cos H angle * speed * speedMultiplier in
  let vy := Math_sin H angle * speed * speedMultiplier in
  rz ← random H;
  let size := Emission.sizeMin em
              + rz * (Emission.sizeMax em - Emission.sizeMin em) in
  let sizeMultiplier := 1 + audioEnergy * AudioReactive.sizeMultiplier ar in
  let actualSize := size * sizeMultiplier in
  rl ← random H;
  let life := Emission.lifeMin em
              + rl * (Emission.lifeMax em - Emission.lifeMin em) in
  rh ← random H;
  let hue := js_rem (Emission.hue em
                     + (rh - frac 1 2) * Emission.hueVariation em
                     + AudioReactive.hueShift ar) (frac 360 1) in
  p ← Particle.init H x y vx vy actualSize life hue;
  mret (set_particlePool (<[i := p]> (particlePool s)) s).

(** The loop of [emit], [n] iterations left; it breaks when the pool has no
    free slot. *)
Fixpoint emit_loop (H : Host) (audioEnergy : Qc) (n : nat) (s : t) : Rand t :=
  match n with
  | O => mret s
  | S n' =>
      match getParticle s with
      | None => mret s
      | Some i => s' ← spawn H audioEnergy i s; emit_loop H audioEnergy n' s'
      end
  end.

(** [emit(count, audioEnergy)] *)
Definition emit (H : Host) (count audioEnergy : Qc) (s : t) : Rand t :=
  let actualCount :=
    Math_floor (count * (1 + audioEnergy
                             * AudioReactive.emissionMultiplier (audioReactive s))) in
  emit_loop H audioEnergy (Z.to_nat actualCount) s.

(** [applyGravity(particle)] *)
Definition applyGravity (s : t) (p : Particle.t) : Particle.t :=
  Particle.applyForce (Physics.gravityX (physics s)) (Physics.gravityY (physics s)) p.

(** [applyMagnetism(particle)] *)
Definition applyMagnetism (H : Host) (s : t) (p : Particle.t) : Particle.t :=
  let dx := Physics.magnetX (physics s) - Particle.x p in
  let dy := Physics.magnetY (physics s) - Particle.y p in
  let distSq := dx * dx + dy * dy in
  let dist := Math_sqrt H distSq in
  if decide (0 < dist) then
    let force := Physics.magnetismStrength (physics s) * Particle.mass p
                 / (distSq + frac 100 1) in
    Particle.applyForce (dx / dist * force) (dy / dist * force) p
  else p.

(** [applyTurbulence(particle)] *)
Definition applyTurbulence (H : Host) (s : t) (p : Particle.t) : Particle.t :=
  let freq := Physics.turbulenceFrequency (physics s) in
  let t01 := Qc_of_Z (Z.of_nat (time s)) * frac 1 100 in
  let noiseX := Math_sin H (Particle.x p * freq + t01)
                * Math_cos H (Particle.y p * freq) in
  let noiseY := Math_cos H (Particle.x p * freq)
                * Math_sin H (Particle.y p * freq + t01) in
  Particle.applyForce (noiseX * Physics.turbulenceStrength (physics s))
                      (noiseY * Physics.turbulenceStrength (physics s)) p.

(** [applyOrbital(particle)] *)
Definition applyOrbital (H : Host) (s : t) (p : Particle.t) : Particle.t :=
  let centerX := Physics.orbitalCenterX (physics s) * width s in
  let centerY := Physics.orbitalCenterY (physics s) * height s in
  let dx := Particle.x p - centerX in
  let dy := Particle.y p - centerY in
  let dist := Math_sqrt H (dx * dx + dy * dy) in
  if decide (0 < dist) then
    let forceMag := Physics.orbitalStrength (physics s) in
    let p1 := Particle.applyForce (- dy / dist * forceMag) (dx / dist * forceMag) p in
    let centripetalForce := frac 1 100 in
    Particle.applyForce (- dx / dist * centripetalForce)
                        (- dy / dist * centripetalForce) p1
  else p.

(** The [switch] on [physics.mode] in [update]; an unknown mode matches no
    case. *)
Definition applyMode (H : Host) (s : t) (p : Particle.t) : Particle.t :=
  let m := Physics.mode (physics s) in
  if decide (m = "gravity") then applyGravity s p
  else if decide (m = "magnetism") then applyMagnetism H s p
  else if decide (m = "turbulence") then applyTurbulence H s p
  else if decide (m = "orbital") then applyOrbital H s p
  else p.

(** Assignment to the fields the audio block and the damping write. *)
Definition set_vx_vy_size (vx' vy' size' : Qc) (p : Particle.t) : Particle.t :=
  {| Particle.x := Particle.x p; Particle.y := Particle.y p;
     Particle.vx := vx'; Particle.vy := vy';
     Particle.ax := Particle.ax p; Particle.ay := Particle.ay p;
     Particle.size := size';
     Particle.life := Particle.life p; Particle.maxLife := Particle.maxLife p;
     Particle.hue := Particle.hue p;
     Particle.saturation := Particle.saturation p;
     Particle.lightness := Particle.lightness p;
     Particle.alpha := Particle.alpha p; Particle.active := Particle.active p;
     Particle.mass := Particle.mass p;
     Particle.angle := Particle.angle p;
     Particle.angularVelocity := Particle.angularVelocity p |}.

(** The block guarded by [audioBands && audioBands.length === 7]; [None] is
    the source's [null]. *)
Definition applyAudio (audioBands : option (list Qc)) (p : Particle.t) : Particle.t :=
  match audioBands with
  | Some b =>
      if decide (length b = 7%nat) then
        let vy1 := Particle.vy p + band b 1 * frac 1 2 in
        let vx1 := Particle.vx p + (band b 5 - frac 1 2) * frac 3 10 in
        let size1 := Particle.size p * (1 + band b 3 * frac 1 5) in
        set_vx_vy_size vx1 vy1 size1 p
      else p
  | None => p
  end.

(** [particle.vx *= damping; particle.vy *= damping] *)
Definition applyDamping (s : t) (p : Particle.t) : Particle.t :=
  set_vx_vy_size (Particle.vx p * Physics.damping (physics s))
                 (Particle.vy p * Physics.damping (physics s))
                 (Particle.size p) p.

(** The boundary block of [update]: bounce when enabled, otherwise wrap when
    enabled. *)
Definition handleBoundaries (s : t) (p : Particle.t) : Particle.t :=
  if Physics.bounceEnabled (physics s) then
    Particle.bounce (width s) (height s) (frac 4 5) p
  else if Physics.wrapEnabled (physics s) then
    Particle.wrap (width s) (height s) p
  else p.

(** The body of the loop of [update] for one active particle. *)
Definition updateParticle (H : Host) (s : t) (deltaTime : Qc)
    (audioBands : option (list Qc)) (p : Particle.t) : Particle.t :=
  let p1 := applyMode H s p in
  let p2 := applyAudio audioBands p1 in
  let p3 := applyDamping s p2 in
  let p4 := Particle.update (width s) (height s) deltaTime p3 in
  handleBoundaries s p4.

(** The loop of [update] from slot [i] on: [pool] is the rest of the pool,
    [count] and [sh] the running [activeParticleCount] and spatial hash.
    Every iteration reads and writes its own slot only. *)
Fixpoint update_loop (H : Host) (s : t) (deltaTime : Qc)
    (audioBands : option (list Qc)) (i : nat) (pool : list Particle.t)
    (count : nat) (sh : SpatialHash.t)
    : list Particle.t * nat * SpatialHash.t :=
  match pool with
  | [] => ([], count, sh)
  | p :: rest =>
      if Particle.active p then
        let p' := updateParticle H s deltaTime audioBands p in
        let '(rest', c, sh') :=
          update_loop H s deltaTime audioBands (S i) rest (S count)
                      (SpatialHash.insert i p' sh) in
        (p' :: rest', c, sh')
      else
        let '(rest', c, sh') :=
          update_loop H s deltaTime audioBands (S i) rest count sh in
        (p :: rest', c, sh')
  end.

(** The statements of [update] that precede its loop: the frame counter is
    incremented, the spatial hash cleared, the active count reset. *)
Definition begin_frame (s : t) : t :=
  {| maxParticles := maxParticles s; particles := particles s;
     particlePool := particlePool s;
     spatialHash := SpatialHash.clear (spatialHash s);
     physics := physics s; emission := emission s;
     audioReactive := audioReactive s;
     width := width s; height := height s;
     activeParticleCount := 0; time := S (time s) |}.

(** [update(deltaTime, audioBands)] *)
Definition update (H : Host) (deltaTime : Qc) (audioBands : option (list Qc))
    (s : t) : t :=
  let s1 := begin_frame s in
  let '(pool', c, sh') :=
    update_loop H s1 deltaTime audioBands 0 (particlePool s1) 0 (spatialHash s1) in
  {| maxParticles := maxParticles s1; particles := particles s1;
     particlePool := pool'; spatialHash := sh';
     physics := physics s1; emission := emission s1;
     audioReactive := audioReactive s1;
     width := width s1; height := height s1;
     activeParticleCount := c; time := time s1 |}.

(** [getActiveParticles()] *)
Definition getActiveParticles (s : t) : list Particle.t :=
  filter (λ p, Particle.active p = true) (particlePool s).

(** [array[index]] for an integer-valued index; [None] is [undefined]. *)
Definition at_index {A} (l : list A) (index : Z) : option A :=
  if decide (index < 0)%Z then None else l !! Z.to_nat index.

(** The index [Math.floor(i * step)] that iteration [i] of the sampling loop
    reads. *)
Definition lodIndex (activeLength : nat) (maxParticles : Qc) (i : nat) : Z :=
  let step := Qc_of_Z (Z.of_nat activeLength) / maxParticles in
  Math_floor (Qc_of_Z (Z.of_nat i) * step).

(** [getActiveParticlesLOD(maxParticles)]; the result lists what the source
    pushes, [None] for an [undefined] read past the end of [active]. *)
Definition getActiveParticlesLOD (maxParticles : Qc) (s : t)
    : list (option Particle.t) :=
  let active := getActiveParticles s in
  if decide (Qc_of_Z (Z.of_nat (length active)) <= maxParticles) then
    Some <$> active
  else
    (λ i, at_index active (lodIndex (length active) maxParticles i))
      <$> seq 0 (loop_bound maxParticles).

(** [clear()] *)
Definition deactivate (p : Particle.t) : Particle.t :=
  {| Particle.x := Particle.x p; Particle.y := Particle.y p;
     Particle.vx := Particle.vx p; Particle.vy := Particle.vy p;
     Particle.ax := Particle.ax p; Particle.ay := Particle.ay p;
     Particle.size := Particle.size p;
     Particle.life := Particle.life p; Particle.maxLife := Particle.maxLife p;
     Particle.hue := Particle.hue p;
     Particle.saturation := Particle.saturation p;
     Particle.lightness := Particle.lightness p;
     Particle.alpha := Particle.alpha p; Particle.active := false;
     Particle.mass := Particle.mass p;
     Particle.angle := Particle.angle p;
     Particle.angularVelocity := Particle.angularVelocity p |}.

Definition clear (s : t) : t :=
  {| maxParticles := maxParticles s; particles := particles s;
     particlePool := deactivate <$> particlePool s;
     spatialHash := spatialHash s;
     physics := physics s; emission := emission s;
     audioReactive := audioReactive s;
     width := width s; height := height s;
     activeParticleCount := 0; time := time s |}.

(** [setPhysicsMode(mode)] *)
Definition validModes : list string :=
  ["gravity"; "magnetism"; "turbulence"; "orbital"].

Definition setPhysicsMode (mode : string) (s : t) : t :=
  if decide (mode ∈ validModes) then set_physics (set_mode mode (physics s)) s
  else s.

(** [setMagnetPosition(x, y)] *)
Definition setMagnetPosition (x y : Qc) (s : t) : t :=
  set_physics (set_magnet x y (physics s)) s.

(** The number of active slots of the pool. *)
Definition activeCount (s : t) : nat := length (getActiveParticles s).

(** [setEmissionPosition(x, y)] *)
Definition setEmissionPosition (x y : Qc) (s : t) : t :=
  let em := emission s in
  set_emission
    {| Emission.rate := Emission.rate em;
       Emission.x := Math_max 0 (Math_min 1 x);
       Emission.y := Math_max 0 (Math_min 1 y);
       Emission.spread := Emission.spread em;
       Emission.velocityMin := Emission.velocityMin em;
       Emission.velocityMax := Emission.velocityMax em;
       Emission.sizeMin := Emission.sizeMin em;
       Emission.sizeMax := Emission.sizeMax em;
       Emission.lifeMin := Emission.lifeMin em;
       Emission.lifeMax := Emission.lifeMax em;
       Emission.hue := Emission.hue em;
       Emission.hueVariation := Emission.hueVariation em |} s.

End ParticleSystem.

(** ** class Renderer: the colour of a particle *)

Module Renderer.

Record palette := mkPalette {
  hueStart : Qc;
  hueRange : Qc;
  saturation : Qc;
  lightness : Qc
}.

(** The table [colorPalettes] of the constructor. *)
Definition colorPalettes : list (string * palette) :=
  [ ("rainbow", mkPalette 0 (frac 360 1) (frac 100 1) (frac 50 1));
    ("fire", mkPalette 0 (frac 60 1) (frac 100 1) (frac 50 1));
    ("ice", mkPalette (frac 180 1) (frac 60 1) (frac 100 1) (frac 60 1));
    ("purple", mkPalette (frac 260 1) (frac 60 1) (frac 80 1) (frac 50 1));
    ("green", mkPalette (frac 100 1) (frac 80 1) (frac 70 1) (frac 50 1));
    ("monochrome", mkPalette 0 0 0 (frac 80 1)) ].

(** [getPaletteColor(particleHue, alpha)] for the palette in use: the four
    numbers the source prints into the [hsla(...)] string. *)
Definition getPaletteColor (pal : palette) (particleHue alpha : Qc)
    : Qc * Qc * Qc * Qc :=
  let hue := hueStart pal + (particleHue / frac 360 1) * hueRange pal in
  let hue := js_rem hue (frac 360 1) in
  (hue, saturation pal, lightness pal, alpha).

End Renderer.

(** ** class MIDIController: the value written by a control change *)

Module MIDIController.

(** The value [handleCC] passes to [setParameter] for a control-change value
    and a mapping with bounds [min] and [max]. *)
Definition mappedValue (value min max : Qc) : Qc :=
  let normalizedValue := value / frac 127 1 in
  min + normalizedValue * (max - min).

End MIDIController.

(** ** Running the model

    A host for evaluating the model on concrete inputs: the draws of
    [Math.random] come from a given tape, and the transcendental functions are
    replaced by rational stand-ins (exact square roots of squares, short
    Taylor polynomials).  No theorem below depends on these stand-ins: each
    is stated for every host, under the hypotheses on the host it needs. *)

Definition sqrt_approx (a : Qc) : Qc :=
  Q2Qc (Z.sqrt (Qnum a * Z.pos (Qden a)) # Qden a).
Definition sin_approx (a : Qc) : Qc := a - a * a * a * frac 1 6.
Definition cos_approx (a : Qc) : Qc := 1 - a * a * frac 1 2.

Definition host_of_tape (tape : nat -> Qc) : Host :=
  {| Math_random := tape;
     Math_sqrt := sqrt_approx;
     Math_sin := sin_approx;
     Math_cos := cos_approx;
     Math_PI := frac 355 113 |}.

(** The tape whose draws are all [0], and the tape whose draws are all
    [1/2]. *)
Definition host_zero : Host := host_of_tape (λ _, 0).
Definition host_half : Host := host_of_tape (λ _, frac 1 2).

(** [k] successive calls [particle.update(width, height, 1)]. *)
Definition advance (width height : Qc) (k : nat) (p : Particle.t) : Particle.t :=
  Nat.iter k (Particle.update width height 1) p.

(** A particle spawned by [init] at the origin, at rest, of size [size0] and
    lifetime [life0]. *)
Definition spawned_at_rest (size0 life0 : Qc) : Particle.t :=
  (Particle.init host_zero 0 0 0 0 size0 life0 0 0%nat).1.

(** What the specification says of [life] after [k] calls on a particle of
    lifetime [L]: [L - 0.01 k], clamped at [0]. *)
Definition life_clamped (L : Qc) (k : nat) : Qc :=
  Math_max 0 (L - frac 1 100 * Qc_of_Z (Z.of_nat k)).

(** The first [k] for which [L - 0.01 k <= 0]. *)
Definition death_step (L : Qc) : nat := Z.to_nat (Math_ceil (L * frac 100 1)).

(** The engine with the boundary flags set to the given values, everything
    else as in [s]. *)
Definition with_boundary_flags (bounce wrap : bool) (s : ParticleSystem.t)
    : ParticleSystem.t :=
  let ph := ParticleSystem.physics s in
  ParticleSystem.set_physics
    {| Physics.mode := Physics.mode ph;
       Physics.gravity := Physics.gravity ph;
       Physics.gravityX := Physics.gravityX ph;
       Physics.gravityY := Physics.gravityY ph;
       Physics.magnetismStrength := Physics.magnetismStrength ph;
       Physics.magnetX := Physics.magnetX ph;
       Physics.magnetY := Physics.magnetY ph;
       Physics.turbulenceStrength := Physics.turbulenceStrength ph;
       Physics.turbulenceFrequency := Physics.turbulenceFrequency ph;
       Physics.orbitalCenterX := Physics.orbitalCenterX ph;
       Physics.orbitalCenterY := Physics.orbitalCenterY ph;
       Physics.orbitalStrength := Physics.orbitalStrength ph;
       Physics.damping := Physics.damping ph;
       Physics.bounceEnabled := bounce;
       Physics.wrapEnabled := wrap |} s.

(** A spawned particle moved to [(x, y)] with velocity [(vx, vy)]. *)
Definition particle_at (x y vx vy : Qc) : Particle.t :=
  Particle.set_y_vy y vy (Particle.set_x_vx x vx (spawned_at_rest 2 (frac 100 1))).

(** The audio-coupled adjustments as the specification words them: the bass
    energy (index 1) is added, halved, to the vertical velocity; the treble
    energy (index 5), offset from its midpoint [0.5], to the horizontal
    velocity with factor [0.3]; the mid-band energy (index 3) scales the size
    by [1 + 0.2 * mid]. *)
Definition audioCoupled (b : list Qc) (p : Particle.t) : Particle.t :=
  let bass := band b 1 in
  let mid := band b 3 in
  let treble := band b 5 in
  ParticleSystem.set_vx_vy_size
    (Particle.vx p + (treble - frac 1 2) * frac 3 10)
    (Particle.vy p + bass * frac 1 2)
    (Particle.size p * (1 + mid * frac 1 5)) p.

(** The per-frame pipeline of the specification for one active particle,
    with the audio stage [adjust] left open: mode force, audio stage,
    damping, integration, boundary policy. *)
Definition pipeline (H : Host) (s : ParticleSystem.t) (deltaTime : Qc)
    (adjust : Particle.t -> Particle.t) (p : Particle.t) : Particle.t :=
  ParticleSystem.handleBoundaries s
    (Particle.update (ParticleSystem.width s) (ParticleSystem.height s) deltaTime
       (ParticleSystem.applyDamping s (adjust (ParticleSystem.applyMode H s p)))).

(** A function applied to the active slots of a pool only. *)
Definition on_active (f : Particle.t -> Particle.t) (pool : list Particle.t)
    : list Particle.t :=
  (λ p, if Particle.active p then f p else p) <$> pool.

(** The default engine of capacity [1] whose only slot holds [p]. *)
Definition engine_with (p : Particle.t) : ParticleSystem.t :=
  ParticleSystem.set_particlePool [p] (ParticleSystem.new 1).

(** [particlePool[i]]; the fresh particle stands for a read out of range. *)
Definition slot (i : nat) (s : ParticleSystem.t) : Particle.t :=
  default Particle.new (ParticleSystem.particlePool s !! i).

(** [b] is within [tol] of [a]. *)
Definition near (a b tol : Qc) : Prop := a - tol <= b /\ b <= a + tol.

(** The calls a client makes on the engine between construction and a
    query, and their effect in sequence. *)
Inductive call :=
  | Emit (count audioEnergy : Qc)
  | Update (deltaTime : Qc) (audioBands : option (list Qc))
  | Clear.

Definition run_call (H : Host) (c : call) (s : ParticleSystem.t)
    : Rand ParticleSystem.t :=
  match c with
  | Emit count audioEnergy => ParticleSystem.emit H count audioEnergy s
  | Update deltaTime audioBands => mret (ParticleSystem.update H deltaTime audioBands s)
  | Clear => mret (ParticleSystem.clear s)
  end.

Fixpoint run_calls (H : Host) (cs : list call) (s : ParticleSystem.t)
    : Rand ParticleSystem.t :=
  match cs with
  | [] => mret s
  | c :: rest => s' ← run_call H c s; run_calls H rest s'
  end.

(** The number of particles [emit(count, audioEnergy)] tries to spawn. *)
Definition actualCount (count audioEnergy : Qc) (s : ParticleSystem.t) : nat :=
  Z.to_nat (Math_floor (count * (1 + audioEnergy
      * AudioReactive.emissionMultiplier (ParticleSystem.audioReactive s)))).

(** [k] successive calls [update(1, null)] of the engine. *)
Definition frames (H : Host) (k : nat) (s : ParticleSystem.t) : ParticleSystem.t :=
  Nat.iter k (ParticleSystem.update H 1 None) s.

(** Two particles with the same remaining life and the same activity flag. *)
Definition same_vitals (p q : Particle.t) : Prop :=
  Particle.life p = Particle.life q /\ Particle.active p = Particle.active q.

(** The lifetime range of the default emission configuration. *)
Definition default_lifetime (p : Particle.t) : Prop :=
  Particle.active p = true ->
  frac 100 1 <= Particle.life p /\ Particle.life p < frac 200 1.

(** The engine of the end-to-end scenario: capacity 10, then one call
    [emit(5, 0)], its draws read from cursor [c] on.  ([emission.rate], which
    the scenario sets to 5, is read by the callers of [emit] only.) *)
Definition scenario_engine (H : Host) (c : nat) : ParticleSystem.t :=
  (ParticleSystem.emit H (frac 5 1) 0 (ParticleSystem.new (frac 10 1)) c).1.

(** The default engine of capacity [1] with [audioReactive.hueShift] set to
    [shift]. *)
Definition engine_with_hueShift (shift : Qc) : ParticleSystem.t :=
  let s := ParticleSystem.new 1 in
  let ar := ParticleSystem.audioReactive s in
  ParticleSystem.set_audioReactive
    {| AudioReactive.emissionMultiplier := AudioReactive.emissionMultiplier ar;
       AudioReactive.sizeMultiplier := AudioReactive.sizeMultiplier ar;
       AudioReactive.velocityMultiplier := AudioReactive.velocityMultiplier ar;
       AudioReactive.hueShift := shift |} s.

(** The bucket of a cell of the spatial hash; the empty list stands for a
    key the grid does not have. *)
Definition bucket (key : Z * Z) (h : SpatialHash.t) : list nat :=
  default [] (SpatialHash.grid h !! key).

(** A spatial hash of cell size 50 holding index [0] for a particle at
    [(120, 80)]. *)
Definition sample_hash : SpatialHash.t :=
  SpatialHash.insert 0 (particle_at (frac 120 1) (frac 80 1) 0 0)
    (SpatialHash.new (frac 50 1)).

(** The cell of the position of slot [j]. *)
Definition cell_of_slot (j : nat) (s : ParticleSystem.t) : Z * Z :=
  SpatialHash.getCellKey (Particle.x (slot j s)) (Particle.y (slot j s))
    (ParticleSystem.spatialHash s).

(** No slot of the pool carries a pending acceleration. *)
Definition no_pending_acceleration (s : ParticleSystem.t) : Prop :=
  Forall (λ p, Particle.ax p = 0 /\ Particle.ay p = 0) (ParticleSystem.particlePool s).

(** What [emit] gives to a particle it spawns, in terms of the configuration
    of the engine [s] and of the audio energy [e]. *)
Definition freshly_spawned (s : ParticleSystem.t) (e : Qc) (p : Particle.t) : Prop :=
  let em := ParticleSystem.emission s in
  let k := 1 + e * AudioReactive.sizeMultiplier (ParticleSystem.audioReactive s) in
  Particle.active p = true
  /\ Particle.maxLife p = Particle.life p
  /\ Particle.alpha p = 1
  /\ Particle.ax p = 0 /\ Particle.ay p = 0
  /\ Particle.mass p = Particle.size p * frac 1 10
  /\ (Emission.lifeMin em <= Emission.lifeMax em ->
      Emission.lifeMin em <= Particle.life p <= Emission.lifeMax em)
  /\ (Emission.sizeMin em <= Emission.sizeMax em -> 0 <= k ->
      Emission.sizeMin em * k <= Particle.size p <= Emission.sizeMax em * k)
  /\ (0 <= Emission.spread em * ParticleSystem.width s ->
      Emission.x em * ParticleSystem.width s
        - frac 1 2 * (Emission.spread em * ParticleSystem.width s)
      <= Particle.x p
      <= Emission.x em * ParticleSystem.width s
         + frac 1 2 * (Emission.spread em * ParticleSystem.width s))
  /\ (0 <= Emission.spread em * ParticleSystem.height s ->
      Emission.y em * ParticleSystem.height s
        - frac 1 2 * (Emission.spread em * ParticleSystem.height s)
      <= Particle.y p
      <= Emission.y em * ParticleSystem.height s
         + frac 1 2 * (Emission.spread em * ParticleSystem.height s)).

(** The slots below [k] are active and the others are not. *)
Definition prefix_active (k : nat) (pool : list Particle.t) : Prop :=
  forall j p, pool !! j = Some p -> (Particle.active p = true <-> (j < k)%nat).

(** * Properties *)

(** ** Arithmetic on [Qc] through [Q] *)

Lemma this_plus (a b : Qc) : (this (a + b) == this a + this b)%Q.
Proof. apply Qred_correct. Qed.

Lemma this_opp (a : Qc) : (this (- a) == - this a)%Q.
Proof. apply Qred_correct. Qed.

Lemma this_minus (a b : Qc) : (this (a - b) == this a - this b)%Q.
Proof.
  unfold Qcminus. rewrite this_plus, this_opp. reflexivity.
Qed.

Lemma this_mult (a b : Qc) : (this (a * b) == this a * this b)%Q.
Proof. apply Qred_correct. Qed.

Lemma this_frac n d : (this (frac n d) == n # d)%Q.
Proof. apply Qred_correct. Qed.

Lemma this_of_Z z : this (Qc_of_Z z) = inject_Z z.
Proof. reflexivity. Qed.

Lemma this_0 : this 0 = 0%Q.
Proof. reflexivity. Qed.

Lemma this_1 : this 1 = 1%Q.
Proof. reflexivity. Qed.

Lemma Qc_eq_Qeq (a b : Qc) : a = b -> (this a == this b)%Q.
Proof. intros ->. reflexivity. Qed.

(** Moves a goal about [Qc] to [Q], where [lra] decides linear arithmetic. *)
Ltac qc2q :=
  unfold Qclt, Qcle in *;
  repeat match goal with
  | |- @eq Qc _ _ => apply Qc_is_canon
  | H : @eq Qc _ _ |- _ => apply Qc_eq_Qeq in H
  end;
  repeat first
    [ rewrite this_plus in * | rewrite this_minus in * | rewrite this_opp in *
    | rewrite this_mult in * | rewrite this_frac in * ];
  rewrite ?this_of_Z, ?this_0, ?this_1 in *;
  change (inject_Z (Z.of_nat 0)) with 0%Q in *.

Ltac qc_lra := qc2q; lra.

(** [loop_bound m] counts the naturals below [m]. *)
Lemma loop_bound_spec (m : Qc) (i : nat) :
  Qc_of_Z (Z.of_nat i) < m <-> (i < loop_bound m)%nat.
Proof.
  unfold loop_bound, Math_ceil. split.
  - intros Hlt. unfold Qclt in Hlt. rewrite this_of_Z in Hlt.
    destruct (Z_lt_le_dec (Z.of_nat i) (Qceiling m)) as [|Hge]; [lia|].
    exfalso. pose proof (Qle_ceiling m) as Hc.
    rewrite Zle_Qle in Hge. lra.
  - intros Hlt. unfold Qclt. rewrite this_of_Z.
    pose proof (Qceiling_lt m) as Hc.
    assert (Hz : (Z.of_nat i <= Qceiling m - 1)%Z) by lia.
    rewrite Zle_Qle in Hz. lra.
Qed.

Lemma loop_bound_nat (n : nat) : loop_bound (Qc_of_Z (Z.of_nat n)) = n.
Proof.
  unfold loop_bound, Math_ceil. rewrite this_of_Z, Qceiling_Z. lia.
Qed.

Lemma Qc_of_nat_S (k : nat) :
  Qc_of_Z (Z.of_nat (S k)) = Qc_of_Z (Z.of_nat k) + 1.
Proof.
  apply Qc_is_canon.
  rewrite this_plus, !this_of_Z, Nat2Z.inj_succ, <- Z.add_1_r, inject_Z_plus.
  reflexivity.
Qed.

(** ** The life of a particle under [Particle.update] *)

Lemma death_step_spec (L : Qc) (j : nat) :
  L - frac 1 100 * Qc_of_Z (Z.of_nat j) <= 0 <-> (death_step L <= j)%nat.
Proof.
  unfold death_step, Math_ceil.
  assert (Hm : (this (L * frac 100 1) == this L * 100)%Q)
    by (rewrite this_mult, this_frac; reflexivity).
  set (c := L * frac 100 1) in *.
  split.
  - intros Hle.
    assert (Hq : (this c <= inject_Z (Z.of_nat j))%Q) by (rewrite Hm; qc_lra).
    apply Qceiling_resp_le in Hq. rewrite Qceiling_Z in Hq. lia.
  - intros Hle.
    assert (Hz : (Qceiling (this c) <= Z.of_nat j)%Z) by lia.
    rewrite Zle_Qle in Hz.
    pose proof (Qle_ceiling (this c)) as Hc.
    qc_lra.
Qed.

Section Life.

Variables width height : Qc.

Lemma update_inactive (dt : Qc) (p : Particle.t) :
  Particle.active p = false -> Particle.update width height dt p = p.
Proof. intros Hp. unfold Particle.update. by rewrite Hp. Qed.

Lemma update_life (dt : Qc) (p : Particle.t) :
  Particle.active p = true ->
  Particle.life (Particle.update width height dt p)
  = Particle.life p - frac 1 100 * dt.
Proof. intros Hp. unfold Particle.update. by rewrite Hp. Qed.

Lemma update_maxLife (dt : Qc) (p : Particle.t) :
  Particle.maxLife (Particle.update width height dt p) = Particle.maxLife p.
Proof. unfold Particle.update. by destruct (Particle.active p). Qed.

Lemma update_active (dt : Qc) (p : Particle.t) :
  Particle.active p = true ->
  Particle.active (Particle.update width height dt p)
  = bool_decide (0 < Particle.life p - frac 1 100 * dt).
Proof.
  intros Hp. unfold Particle.update. rewrite Hp. simpl.
  destruct (decide (_ <= 0)) as [Hle|Hgt].
  - symmetry. apply bool_decide_eq_false. by apply Qcle_not_lt.
  - symmetry. apply bool_decide_eq_true. by apply Qcnot_le_lt.
Qed.

Lemma update_alpha (dt : Qc) (p : Particle.t) :
  Particle.active p = true ->
  Particle.alpha (Particle.update width height dt p)
  = Math_max 0 (Particle.life (Particle.update width height dt p)
                / Particle.maxLife p).
Proof. intros Hp. unfold Particle.update. by rewrite Hp. Qed.

Lemma advance_S (k : nat) (p : Particle.t) :
  advance width height (S k) p
  = Particle.update width height 1 (advance width height k p).
Proof. reflexivity. Qed.

(** Before its death step the particle is active and has lost [0.01] per
    call. *)
Lemma advance_alive (k : nat) (p : Particle.t) :
  Particle.active p = true ->
  (k < death_step (Particle.life p))%nat ->
  Particle.active (advance width height k p) = true
  /\ Particle.life (advance width height k p)
     = Particle.life p - frac 1 100 * Qc_of_Z (Z.of_nat k)
  /\ Particle.maxLife (advance width height k p) = Particle.maxLife p.
Proof.
  intros Hp. induction k as [|k IH]; intros Hk.
  - repeat split; [done|]. unfold advance. simpl Nat.iter. qc_lra.
  - destruct IH as (Ha & Hl & Hm); [lia|].
    rewrite advance_S, update_active, update_life, update_maxLife by done.
    assert (Hpos : ~ (Particle.life p - frac 1 100 * Qc_of_Z (Z.of_nat (S k))
                      <= 0)) by (rewrite death_step_spec; lia).
    apply Qcnot_le_lt in Hpos.
    assert (Heq : Particle.life (advance width height k p) - frac 1 100 * 1
                  = Particle.life p - frac 1 100 * Qc_of_Z (Z.of_nat (S k))).
    { rewrite Hl, Qc_of_nat_S. ring. }
    rewrite Heq. repeat split; [|done].
    by apply bool_decide_eq_true.
Qed.

Lemma death_step_pos (L : Qc) : 0 < L -> (0 < death_step L)%nat.
Proof.
  intros HL. destruct (death_step L) eqn:E; [|lia].
  exfalso. assert (Hle : (death_step L <= 0)%nat) by lia.
  apply death_step_spec in Hle. qc_lra.
Qed.

(** At its death step the particle is switched off, with the life it has
    then. *)
Lemma advance_death (p : Particle.t) :
  Particle.active p = true -> 0 < Particle.life p ->
  let k0 := death_step (Particle.life p) in
  Particle.active (advance width height k0 p) = false
  /\ Particle.life (advance width height k0 p)
     = Particle.life p - frac 1 100 * Qc_of_Z (Z.of_nat k0).
Proof.
  intros Hp HL k0. pose proof (death_step_pos _ HL) as Hk0.
  destruct (death_step (Particle.life p)) as [|k1] eqn:E; [lia|].
  subst k0. destruct (advance_alive k1 p Hp) as (Ha & Hl & Hm); [lia|].
  rewrite advance_S, update_active, update_life by done.
  assert (Hle : Particle.life p - frac 1 100 * Qc_of_Z (Z.of_nat (S k1)) <= 0)
    by (rewrite death_step_spec; lia).
  assert (Heq : Particle.life (advance width height k1 p) - frac 1 100 * 1
                = Particle.life p - frac 1 100 * Qc_of_Z (Z.of_nat (S k1))).
  { rewrite Hl, Qc_of_nat_S. ring. }
  rewrite Heq. split; [|done].
  apply bool_decide_eq_false. by apply Qcle_not_lt.
Qed.

(** From its death step on the particle no longer changes. *)
Lemma advance_frozen (k : nat) (p : Particle.t) :
  Particle.active p = true -> 0 < Particle.life p ->
  (death_step (Particle.life p) <= k)%nat ->
  advance width height k p
  = advance width height (death_step (Particle.life p)) p.
Proof.
  intros Hp HL Hk. induction Hk as [|k Hk IH]; [done|].
  rewrite advance_S, IH. apply update_inactive.
  by apply advance_death.
Qed.

End Life.

(** C2, as the specification states it, fails: [life] is not clamped at [0].
    A particle spawned with lifetime [0.005] has [life = -0.005] after one
    call of [update], where the clamped formula gives [0]. *)
Lemma life_not_clamped :
  Particle.life (advance 0 0 1 (spawned_at_rest 2 (frac 1 200)))
  <> life_clamped (frac 1 200) 1.
Proof.
  intros Heq. apply Qc_eq_Qeq in Heq. vm_compute in Heq. discriminate.
Qed.

(** C2, amended (conservation of life).  For a particle spawned with
    [maxLife = L > 0], after [k] calls of [update] with [deltaTime = 1]:
    [life = L - 0.01 * min k k0], where [k0] is the first [k] for which
    [L - 0.01 k <= 0]; [life] is not clamped, so from [k0] on it keeps the
    value [L - 0.01 k0], which may be negative; it is [alpha] that is clamped,
    [alpha = max 0 (life / L)]; [active] is true exactly for [k < k0]; and from
    [k0] on a further call changes nothing. *)
Theorem life_after_advances (width height L : Qc) (p : Particle.t) (k : nat) :
  Particle.active p = true ->
  Particle.life p = L -> Particle.maxLife p = L -> 0 < L ->
  let k0 := death_step L in
  let p' := advance width height k p in
  (forall j : nat, L - frac 1 100 * Qc_of_Z (Z.of_nat j) <= 0 <-> (k0 <= j)%nat)
  /\ Particle.life p' = L - frac 1 100 * Qc_of_Z (Z.of_nat (Nat.min k k0))
  /\ Particle.active p' = bool_decide (k < k0)%nat
  /\ ((0 < k)%nat -> Particle.alpha p' = Math_max 0 (Particle.life p' / L))
  /\ ((k0 <= k)%nat -> Particle.update width height 1 p' = p').
Proof.
  intros Hp Hl Hm HL k0 p'. subst L k0 p'.
  split; [apply death_step_spec|].
  set (k0 := death_step (Particle.life p)).
  assert (Halpha : forall j, (0 < j <= k0)%nat ->
            Particle.alpha (advance width height j p)
            = Math_max 0 (Particle.life (advance width height j p)
                          / Particle.life p)).
  { intros [|j] Hj; [lia|].
    destruct (advance_alive width height j p Hp) as (Ha & _ & Hmj); [lia|].
    rewrite advance_S, update_alpha by done. by rewrite Hmj, Hm. }
  destruct (decide (k < k0)%nat) as [Hlt|Hge].
  - destruct (advance_alive width height k p Hp Hlt) as (Ha & Hlk & _).
    rewrite Nat.min_l by lia. rewrite Hlk, Ha.
    repeat split; [by rewrite bool_decide_eq_true_2| |lia].
    intros Hk. rewrite <- Hlk. apply Halpha. lia.
  - assert (Hk : (k0 <= k)%nat) by lia.
    rewrite (advance_frozen width height k p Hp HL Hk). fold k0.
    destruct (advance_death width height p Hp HL) as (Ha & Hlk). fold k0 in Ha, Hlk.
    rewrite Nat.min_r by lia. rewrite Hlk, Ha.
    repeat split; [by rewrite bool_decide_eq_false_2| |].
    + intros _. rewrite <- Hlk. apply Halpha.
      pose proof (death_step_pos _ HL). fold k0 in H. lia.
    + intros _. by apply update_inactive.
Qed.

Lemma life_after_advances_witness :
  let p := spawned_at_rest 2 (frac 1 200) in
  let p' := advance 0 0 3 p in
  (forall j : nat,
     frac 1 200 - frac 1 100 * Qc_of_Z (Z.of_nat j) <= 0
     <-> (death_step (frac 1 200) <= j)%nat)
  /\ Particle.life p'
     = frac 1 200
       - frac 1 100 * Qc_of_Z (Z.of_nat (Nat.min 3 (death_step (frac 1 200))))
  /\ Particle.active p' = bool_decide (3 < death_step (frac 1 200))%nat
  /\ ((0 < 3)%nat -> Particle.alpha p' = Math_max 0 (Particle.life p' / frac 1 200))
  /\ ((death_step (frac 1 200) <= 3)%nat -> Particle.update 0 0 1 p' = p').
Proof.
  apply (life_after_advances 0 0 (frac 1 200) (spawned_at_rest 2 (frac 1 200)) 3);
    reflexivity.
Defined.

(** ** Boundary policies *)

Section Boundaries.

Import Particle.

Variables width height damping : Qc.

Lemma bounce_left (p : Particle.t) :
  x p < 0 ->
  x (bounce width height damping p) = 0
  /\ vx (bounce width height damping p) = - (damping * vx p).
Proof.
  intros Hx. unfold bounce. rewrite (decide_True _ _ Hx).
  repeat case_decide; simpl; split; try done; ring.
Qed.

Lemma bounce_right (p : Particle.t) :
  0 <= x p -> width < x p ->
  x (bounce width height damping p) = width
  /\ vx (bounce width height damping p) = - (damping * vx p).
Proof.
  intros H0 Hx. unfold bounce.
  rewrite (decide_False _ _ (Qcle_not_lt _ _ H0)), (decide_True _ _ Hx).
  repeat case_decide; simpl; split; try done; ring.
Qed.

Lemma bounce_top (p : Particle.t) :
  y p < 0 ->
  y (bounce width height damping p) = 0
  /\ vy (bounce width height damping p) = - (damping * vy p).
Proof.
  intros Hy. unfold bounce.
  repeat case_decide; simpl in *; split; try done; try ring.
Qed.

Lemma bounce_bottom (p : Particle.t) :
  0 <= y p -> height < y p ->
  y (bounce width height damping p) = height
  /\ vy (bounce width height damping p) = - (damping * vy p).
Proof.
  intros H0 Hy. apply Qcle_not_lt in H0. unfold bounce.
  repeat case_decide; simpl in *; split; try done; try ring.
Qed.

Lemma wrap_past_right (p : Particle.t) :
  0 <= width -> x p = width + frac 5 1 -> x (wrap width height p) = 0.
Proof.
  intros Hw Hx. unfold wrap.
  assert (H1 : ~ x p < 0) by (apply Qcle_not_lt; qc_lra).
  assert (H2 : width < x p) by qc_lra.
  rewrite (decide_False _ _ H1), (decide_True _ _ H2).
  repeat case_decide; reflexivity.
Qed.

End Boundaries.

(** C6 (boundary policies).  On a canvas of non-negative size, one boundary
    pass with the wrap policy active sends a particle at [x = width + 5] to
    [x = 0]; with the bounce policy active, a coordinate below [0] is clamped
    to [0] and one above [width] (or [height]) is clamped to it, and in each
    case the matching velocity component becomes [-(0.8 * v)]: its sign is
    flipped and its magnitude scaled by the damping factor. *)
Theorem boundary_policies (s : ParticleSystem.t) (p : Particle.t) :
  0 <= ParticleSystem.width s -> 0 <= ParticleSystem.height s ->
  let ph := ParticleSystem.physics s in
  let w := ParticleSystem.width s in
  let h := ParticleSystem.height s in
  let p' := ParticleSystem.handleBoundaries s p in
  (Physics.bounceEnabled ph = false -> Physics.wrapEnabled ph = true ->
   Particle.x p = w + frac 5 1 -> Particle.x p' = 0)
  /\ (Physics.bounceEnabled ph = true ->
      (Particle.x p < 0 ->
       Particle.x p' = 0 /\ Particle.vx p' = - (frac 4 5 * Particle.vx p))
      /\ (w < Particle.x p ->
          Particle.x p' = w /\ Particle.vx p' = - (frac 4 5 * Particle.vx p))
      /\ (Particle.y p < 0 ->
          Particle.y p' = 0 /\ Particle.vy p' = - (frac 4 5 * Particle.vy p))
      /\ (h < Particle.y p ->
          Particle.y p' = h /\ Particle.vy p' = - (frac 4 5 * Particle.vy p))).
Proof.
  intros Hw Hh ph w h p'. subst ph w h p'. unfold ParticleSystem.handleBoundaries.
  split.
  - intros -> -> Hx. by apply wrap_past_right.
  - intros ->. split; [|split; [|split]]; intros Hc.
    + by apply bounce_left.
    + apply bounce_right; [qc_lra|done].
    + by apply bounce_top.
    + apply bounce_bottom; [qc_lra|done].
Qed.

Lemma boundary_policies_witness :
  let s := ParticleSystem.new (frac 10 1) in
  let sb := with_boundary_flags true false s in
  Particle.x (ParticleSystem.handleBoundaries s (particle_at (frac 1925 1) 0 1 0)) = 0
  /\ Particle.x (ParticleSystem.handleBoundaries sb (particle_at (frac 1925 1) 0 1 0))
     = frac 1920 1
  /\ Particle.vx (ParticleSystem.handleBoundaries sb (particle_at (frac 1925 1) 0 1 0))
     = - (frac 4 5 * 1)
  /\ Particle.y (ParticleSystem.handleBoundaries sb (particle_at 0 (- (1)) 0 (- (1)))) = 0
  /\ Particle.vy (ParticleSystem.handleBoundaries sb (particle_at 0 (- (1)) 0 (- (1))))
     = - (frac 4 5 * - (1)).
Proof.
  intros s sb.
  assert (Hw : 0 <= ParticleSystem.width s) by (by vm_compute).
  assert (Hh : 0 <= ParticleSystem.height s) by (by vm_compute).
  pose proof (boundary_policies s (particle_at (frac 1925 1) 0 1 0) Hw Hh) as [Hwrap _].
  pose proof (boundary_policies sb (particle_at (frac 1925 1) 0 1 0) Hw Hh) as [_ Hb1].
  pose proof (boundary_policies sb (particle_at 0 (- (1)) 0 (- (1))) Hw Hh) as [_ Hb2].
  destruct (Hb1 eq_refl) as (_ & Hright & _).
  destruct (Hb2 eq_refl) as (_ & _ & Htop & _).
  split; [apply Hwrap; [reflexivity | reflexivity | by apply Qc_is_canon]|].
  destruct Hright as [? ?]; [by vm_compute|].
  destruct Htop as [? ?]; [by vm_compute|].
  repeat split; assumption.
Defined.

(** ** Force fields *)

Lemma applyMagnetism_at_target (H : Host) (s : ParticleSystem.t) (p : Particle.t) :
  Math_sqrt H 0 = 0 ->
  Particle.x p = Physics.magnetX (ParticleSystem.physics s) ->
  Particle.y p = Physics.magnetY (ParticleSystem.physics s) ->
  ParticleSystem.applyMagnetism H s p = p.
Proof.
  intros Hsqrt Hx Hy. unfold ParticleSystem.applyMagnetism.
  rewrite <- Hx, <- Hy.
  replace (Particle.x p - Particle.x p) with (0 : Qc) by ring.
  replace (Particle.y p - Particle.y p) with (0 : Qc) by ring.
  replace (0 * 0 + 0 * 0) with (0 : Qc) by ring.
  rewrite Hsqrt. by rewrite decide_False by apply (irreflexivity Qclt).
Qed.

Lemma applyOrbital_at_center (H : Host) (s : ParticleSystem.t) (p : Particle.t) :
  Math_sqrt H 0 = 0 ->
  Particle.x p
  = Physics.orbitalCenterX (ParticleSystem.physics s) * ParticleSystem.width s ->
  Particle.y p
  = Physics.orbitalCenterY (ParticleSystem.physics s) * ParticleSystem.height s ->
  ParticleSystem.applyOrbital H s p = p.
Proof.
  intros Hsqrt Hx Hy. unfold ParticleSystem.applyOrbital.
  rewrite <- Hx, <- Hy.
  replace (Particle.x p - Particle.x p) with (0 : Qc) by ring.
  replace (Particle.y p - Particle.y p) with (0 : Qc) by ring.
  replace (0 * 0 + 0 * 0) with (0 : Qc) by ring.
  rewrite Hsqrt. by rewrite decide_False by apply (irreflexivity Qclt).
Qed.

(** C7 (division-by-zero guard).  On a host whose square root of [0] is [0]:
    a particle located exactly on the magnetism target is returned unchanged
    by [applyMagnetism], and one located exactly on the orbital center is
    returned unchanged by [applyOrbital]: the guarded branch, the only one that
    divides by the distance, is not taken, and the acceleration receives no
    contribution from the mode, also when the force is dispatched from
    [update] in that mode. *)
Theorem zero_distance_guard (H : Host) (s : ParticleSystem.t) (p : Particle.t) :
  Math_sqrt H 0 = 0 ->
  let ph := ParticleSystem.physics s in
  (Particle.x p = Physics.magnetX ph -> Particle.y p = Physics.magnetY ph ->
   ParticleSystem.applyMagnetism H s p = p
   /\ (Physics.mode ph = "magnetism" -> ParticleSystem.applyMode H s p = p))
  /\ (Particle.x p = Physics.orbitalCenterX ph * ParticleSystem.width s ->
      Particle.y p = Physics.orbitalCenterY ph * ParticleSystem.height s ->
      ParticleSystem.applyOrbital H s p = p
      /\ (Physics.mode ph = "orbital" -> ParticleSystem.applyMode H s p = p)).
Proof.
  intros Hsqrt ph. subst ph. split; intros Hx Hy.
  - split; [by apply applyMagnetism_at_target|].
    intros Hm. unfold ParticleSystem.applyMode. rewrite Hm. simpl.
    by apply applyMagnetism_at_target.
  - split; [by apply applyOrbital_at_center|].
    intros Hm. unfold ParticleSystem.applyMode. rewrite Hm. simpl.
    by apply applyOrbital_at_center.
Qed.

Lemma zero_distance_guard_witness :
  let s := ParticleSystem.new (frac 10 1) in
  ParticleSystem.applyMagnetism host_zero s (particle_at 0 0 0 0)
  = particle_at 0 0 0 0
  /\ ParticleSystem.applyOrbital host_zero s (particle_at (frac 960 1) (frac 540 1) 0 0)
     = particle_at (frac 960 1) (frac 540 1) 0 0.
Proof.
  intros s.
  assert (Hsqrt : Math_sqrt host_zero 0 = 0) by (by apply Qc_is_canon).
  split.
  - apply (zero_distance_guard host_zero s (particle_at 0 0 0 0) Hsqrt);
      reflexivity.
  - apply (zero_distance_guard host_zero s
             (particle_at (frac 960 1) (frac 540 1) 0 0) Hsqrt);
      by apply Qc_is_canon.
Defined.

(** ** The mode setter *)

(** C10 (mode-setter validation).  [setPhysicsMode] assigns [physics.mode]
    when the argument is one of the four mode names, and then changes nothing
    else; for every other string the engine is returned unchanged. *)
Theorem setPhysicsMode_validates (mode : string) (s : ParticleSystem.t) :
  let s' := ParticleSystem.setPhysicsMode mode s in
  (mode = "gravity" \/ mode = "magnetism" \/ mode = "turbulence" \/ mode = "orbital" ->
   Physics.mode (ParticleSystem.physics s') = mode
   /\ s' = ParticleSystem.set_physics
             (ParticleSystem.set_mode mode (ParticleSystem.physics s)) s)
  /\ (mode <> "gravity" -> mode <> "magnetism" ->
      mode <> "turbulence" -> mode <> "orbital" -> s' = s).
Proof.
  intros s'. subst s'. unfold ParticleSystem.setPhysicsMode, ParticleSystem.validModes.
  split.
  - intros Hv. rewrite decide_True; [done|].
    rewrite !elem_of_cons. tauto.
  - intros H1 H2 H3 H4. rewrite decide_False; [done|].
    rewrite !elem_of_cons, elem_of_nil. tauto.
Qed.

Lemma setPhysicsMode_validates_witness :
  let s := ParticleSystem.new (frac 10 1) in
  Physics.mode (ParticleSystem.physics (ParticleSystem.setPhysicsMode "orbital" s))
  = "orbital"
  /\ ParticleSystem.setPhysicsMode "vortex" s = s.
Proof.
  intros s. split.
  - apply (setPhysicsMode_validates "orbital" s). by right; right; right.
  - by apply (setPhysicsMode_validates "vortex" s).
Defined.

(** ** The frame loop *)

Section Frame.

Variable H : Host.
Variable s : ParticleSystem.t.
Variable deltaTime : Qc.
Variable audioBands : option (list Qc).

Lemma update_loop_pool (i : nat) (pool : list Particle.t) (c : nat)
    (sh : SpatialHash.t) :
  (ParticleSystem.update_loop H s deltaTime audioBands i pool c sh).1.1
  = on_active (ParticleSystem.updateParticle H s deltaTime audioBands) pool.
Proof.
  revert i c sh. induction pool as [|p rest IH]; intros i c sh; [done|].
  simpl. destruct (Particle.active p).
  - specialize (IH (S i) (S c)
      (SpatialHash.insert i (ParticleSystem.updateParticle H s deltaTime audioBands p) sh)).
    destruct (ParticleSystem.update_loop _ _ _ _ _ _ _ _) as [[rest' c'] sh'].
    simpl in *. by rewrite IH.
  - specialize (IH (S i) c sh).
    destruct (ParticleSystem.update_loop _ _ _ _ _ _ _ _) as [[rest' c'] sh'].
    simpl in *. by rewrite IH.
Qed.

Lemma update_loop_count (i : nat) (pool : list Particle.t) (c : nat)
    (sh : SpatialHash.t) :
  (ParticleSystem.update_loop H s deltaTime audioBands i pool c sh).1.2
  = (c + length (filter (λ p, Particle.active p = true) pool))%nat.
Proof.
  revert i c sh. induction pool as [|p rest IH]; intros i c sh; [simpl; lia|].
  simpl. destruct (Particle.active p) eqn:Hp.
  - specialize (IH (S i) (S c)
      (SpatialHash.insert i (ParticleSystem.updateParticle H s deltaTime audioBands p) sh)).
    destruct (ParticleSystem.update_loop _ _ _ _ _ _ _ _) as [[rest' c'] sh'].
    rewrite filter_cons_True by done. simpl in *. lia.
  - specialize (IH (S i) c sh).
    destruct (ParticleSystem.update_loop _ _ _ _ _ _ _ _) as [[rest' c'] sh'].
    rewrite filter_cons_False by (by rewrite Hp). simpl in *. lia.
Qed.

End Frame.

(** The pool after [update] is the pool before it with the loop body applied
    to the active slots. *)
Lemma update_pool (H : Host) (deltaTime : Qc) (audioBands : option (list Qc))
    (s : ParticleSystem.t) :
  ParticleSystem.particlePool (ParticleSystem.update H deltaTime audioBands s)
  = on_active (ParticleSystem.updateParticle H (ParticleSystem.begin_frame s)
                 deltaTime audioBands)
              (ParticleSystem.particlePool s).
Proof.
  unfold ParticleSystem.update.
  pose proof (update_loop_pool H (ParticleSystem.begin_frame s) deltaTime audioBands 0
                (ParticleSystem.particlePool (ParticleSystem.begin_frame s)) 0
                (ParticleSystem.spatialHash (ParticleSystem.begin_frame s))) as Hp.
  destruct (ParticleSystem.update_loop _ _ _ _ _ _ _ _) as [[pool' c'] sh'].
  exact Hp.
Qed.

(** [update] sets [activeParticleCount] to the number of slots that were
    active when it was called. *)
Lemma update_activeParticleCount (H : Host) (deltaTime : Qc)
    (audioBands : option (list Qc)) (s : ParticleSystem.t) :
  ParticleSystem.activeParticleCount (ParticleSystem.update H deltaTime audioBands s)
  = ParticleSystem.activeCount s.
Proof.
  unfold ParticleSystem.update.
  pose proof (update_loop_count H (ParticleSystem.begin_frame s) deltaTime audioBands 0
                (ParticleSystem.particlePool (ParticleSystem.begin_frame s)) 0
                (ParticleSystem.spatialHash (ParticleSystem.begin_frame s))) as Hc.
  destruct (ParticleSystem.update_loop _ _ _ _ _ _ _ _) as [[pool' c'] sh'].
  exact Hc.
Qed.

Lemma update_pool_length (H : Host) (deltaTime : Qc) (audioBands : option (list Qc))
    (s : ParticleSystem.t) :
  length (ParticleSystem.particlePool (ParticleSystem.update H deltaTime audioBands s))
  = length (ParticleSystem.particlePool s).
Proof. rewrite update_pool. apply length_fmap. Qed.

(** ** The audio-energy vector *)

Lemma applyAudio_seven (b : list Qc) (p : Particle.t) :
  length b = 7%nat -> ParticleSystem.applyAudio (Some b) p = audioCoupled b p.
Proof.
  intros Hb. unfold ParticleSystem.applyAudio. by rewrite decide_True.
Qed.

Lemma applyAudio_skipped (audioBands : option (list Qc)) (p : Particle.t) :
  audioBands = None \/ (exists b, audioBands = Some b /\ length b <> 7%nat) ->
  ParticleSystem.applyAudio audioBands p = p.
Proof.
  intros [->|(b & -> & Hb)]; [done|].
  unfold ParticleSystem.applyAudio. by rewrite decide_False.
Qed.

Lemma update_loop_ext (H : Host) (s : ParticleSystem.t) (dt : Qc)
    (b1 b2 : option (list Qc)) (i : nat) (pool : list Particle.t) (c : nat)
    (sh : SpatialHash.t) :
  (forall p, ParticleSystem.applyAudio b1 p = ParticleSystem.applyAudio b2 p) ->
  ParticleSystem.update_loop H s dt b1 i pool c sh
  = ParticleSystem.update_loop H s dt b2 i pool c sh.
Proof.
  intros Hext. revert i c sh.
  induction pool as [|p rest IH]; intros i c sh; [done|].
  simpl. unfold ParticleSystem.updateParticle. rewrite Hext.
  destruct (Particle.active p); by rewrite IH.
Qed.

(** C8 (audio-vector guard).  When the audio-energy vector has exactly seven
    elements, [update] runs every active particle through the pipeline with
    the audio-coupled adjustments between the mode force and the damping.
    When the vector is [null] or has another length, [update] behaves exactly
    as with [null]: every active particle goes through the same pipeline with
    no adjustment, the mode force still being applied. *)
Theorem audio_vector_guard (H : Host) (deltaTime : Qc)
    (audioBands : option (list Qc)) (s : ParticleSystem.t) :
  let s1 := ParticleSystem.begin_frame s in
  let pool' := ParticleSystem.particlePool (ParticleSystem.update H deltaTime audioBands s) in
  (forall b, audioBands = Some b -> length b = 7%nat ->
     pool' = on_active (pipeline H s1 deltaTime (audioCoupled b))
                       (ParticleSystem.particlePool s))
  /\ (audioBands = None \/ (exists b, audioBands = Some b /\ length b <> 7%nat) ->
      pool' = on_active (pipeline H s1 deltaTime id) (ParticleSystem.particlePool s)
      /\ ParticleSystem.update H deltaTime audioBands s
         = ParticleSystem.update H deltaTime None s).
Proof.
  intros s1 pool'. subst s1 pool'. rewrite update_pool. split.
  - intros b -> Hb. unfold on_active. apply list_fmap_ext. intros _ p _.
    destruct (Particle.active p); [|done].
    unfold ParticleSystem.updateParticle, pipeline. by rewrite applyAudio_seven.
  - intros Hskip. split.
    + unfold on_active. apply list_fmap_ext. intros _ p _.
      destruct (Particle.active p); [|done].
      unfold ParticleSystem.updateParticle, pipeline.
      by rewrite applyAudio_skipped.
    + unfold ParticleSystem.update.
      rewrite (update_loop_ext H _ deltaTime audioBands None); [done|].
      intros p. by rewrite applyAudio_skipped.
Qed.

Lemma audio_vector_guard_witness :
  let p := particle_at (frac 100 1) (frac 100 1) 1 1 in
  let b := [0; 1; 0; 1; 0; 1; 0] in
  ParticleSystem.particlePool
    (ParticleSystem.update host_zero 1 (Some b) (engine_with p))
  = on_active (pipeline host_zero (ParticleSystem.begin_frame (engine_with p)) 1
                 (audioCoupled b)) [p]
  /\ ParticleSystem.update host_zero 1 (Some [1; 1; 1]) (engine_with p)
     = ParticleSystem.update host_zero 1 None (engine_with p).
Proof.
  intros p b. split.
  - by apply (audio_vector_guard host_zero 1 (Some b) (engine_with p)).
  - apply (audio_vector_guard host_zero 1 (Some [1; 1; 1]) (engine_with p)).
    right. exists [1; 1; 1]. split; [reflexivity|]. simpl. lia.
Defined.

(** ** Gravity on a particle at rest *)

Lemma wrap_vy (w h : Qc) (p : Particle.t) :
  Particle.vy (Particle.wrap w h p) = Particle.vy p.
Proof. unfold Particle.wrap. repeat case_decide; reflexivity. Qed.

Lemma handleBoundaries_vy (s : ParticleSystem.t) (p : Particle.t) :
  Physics.bounceEnabled (ParticleSystem.physics s) = false ->
  Particle.vy (ParticleSystem.handleBoundaries s p) = Particle.vy p.
Proof.
  intros Hb. unfold ParticleSystem.handleBoundaries. rewrite Hb.
  destruct (Physics.wrapEnabled _); [apply wrap_vy|done].
Qed.

(** The vertical velocity after the loop body, without audio vector and
    without bounce: the damped velocity plus the acceleration gathered from
    the gravity force, times [deltaTime]. *)
Lemma updateParticle_gravity_vy (H : Host) (s : ParticleSystem.t) (dt : Qc)
    (p : Particle.t) :
  Physics.mode (ParticleSystem.physics s) = "gravity" ->
  Physics.bounceEnabled (ParticleSystem.physics s) = false ->
  Particle.active p = true ->
  Particle.vy (ParticleSystem.updateParticle H s dt None p)
  = Particle.vy p * Physics.damping (ParticleSystem.physics s)
    + (Particle.ay p
       + Physics.gravityY (ParticleSystem.physics s) / Particle.mass p) * dt.
Proof.
  intros Hm Hb Hp. unfold ParticleSystem.updateParticle.
  rewrite handleBoundaries_vy by done.
  unfold ParticleSystem.applyMode. rewrite Hm. simpl.
  unfold Particle.update. simpl. by rewrite Hp.
Qed.

(** C4, as the specification states it, fails: in gravity mode with
    [gravityY = 0.1], a spawned particle of size [2] (mass [0.2]) at rest has
    [vy = 0.5] after one update with [deltaTime = 1], which is not within
    [0.1] of [0.1]. *)
Lemma gravity_at_rest_not_a_tenth :
  let s := engine_with (spawned_at_rest 2 (frac 100 1)) in
  Physics.mode (ParticleSystem.physics s) = "gravity"
  /\ Physics.gravityY (ParticleSystem.physics s) = frac 1 10
  /\ Particle.vy (slot 0 (ParticleSystem.update host_zero 1 None s)) = frac 1 2
  /\ ~ near (frac 1 10)
           (Particle.vy (slot 0 (ParticleSystem.update host_zero 1 None s)))
           (frac 1 10).
Proof.
  intros s.
  assert (Hvy : Particle.vy (slot 0 (ParticleSystem.update host_zero 1 None s))
                = frac 1 2) by (apply Qc_is_canon; vm_compute; reflexivity).
  split; [reflexivity|]. split; [reflexivity|]. split; [exact Hvy|].
  rewrite Hvy. intros [_ Hle]. vm_compute in Hle. by apply Hle.
Qed.

(** C4, amended (force-mode isolation).  With [physics.mode = 'gravity'], no
    audio vector and the bounce policy off, every active particle at rest
    ([vx = vy = 0], no pending acceleration) of non-zero mass has, after one
    update with [deltaTime = 1], [vy = gravityY / mass], whatever its
    position: the force is divided by the mass [0.1 * size].  With
    [gravityY = 0.1] this is [0.1] exactly when the mass is [1]. *)
Theorem gravity_at_rest (H : Host) (s : ParticleSystem.t) (i : nat) (p : Particle.t) :
  Physics.mode (ParticleSystem.physics s) = "gravity" ->
  Physics.bounceEnabled (ParticleSystem.physics s) = false ->
  ParticleSystem.particlePool s !! i = Some p ->
  Particle.active p = true ->
  Particle.vx p = 0 -> Particle.vy p = 0 ->
  Particle.ax p = 0 -> Particle.ay p = 0 ->
  Particle.mass p <> 0 ->
  let gy := Physics.gravityY (ParticleSystem.physics s) in
  let p' := slot i (ParticleSystem.update H 1 None s) in
  Particle.vy p' = gy / Particle.mass p
  /\ (gy = frac 1 10 -> (Particle.vy p' = frac 1 10 <-> Particle.mass p = 1)).
Proof.
  intros Hm Hb Hi Hp Hvx Hvy Hax Hay Hmass gy p'.
  assert (Hvy' : Particle.vy p' = gy / Particle.mass p).
  { subst p' gy. unfold slot. rewrite update_pool. unfold on_active.
    rewrite list_lookup_fmap, Hi. simpl. rewrite Hp.
    rewrite updateParticle_gravity_vy by done.
    simpl. rewrite Hvy, Hay. field. done. }
  split; [done|].
  intros Hgy. rewrite Hvy', Hgy. split.
  - intros Heq.
    assert (Hq : frac 1 10 = frac 1 10 * Particle.mass p).
    { rewrite <- Heq at 2. field. done. }
    clear - Hq. qc_lra.
  - intros ->. apply Qc_is_canon. reflexivity.
Qed.

Lemma gravity_at_rest_witness :
  let s := engine_with (spawned_at_rest 2 (frac 100 1)) in
  let p' := slot 0 (ParticleSystem.update host_zero 1 None s) in
  Particle.vy p' = frac 1 10 / Particle.mass (spawned_at_rest 2 (frac 100 1))
  /\ (frac 1 10 = frac 1 10 ->
      (Particle.vy p' = frac 1 10
       <-> Particle.mass (spawned_at_rest 2 (frac 100 1)) = 1)).
Proof.
  apply (gravity_at_rest host_zero (engine_with (spawned_at_rest 2 (frac 100 1)))
           0 (spawned_at_rest 2 (frac 100 1)));
    try reflexivity.
  intros Heq. apply Qc_eq_Qeq in Heq. vm_compute in Heq. discriminate.
Defined.

(** ** Spawning *)

Lemma getParticle_Some (s : ParticleSystem.t) (i : nat) :
  ParticleSystem.getParticle s = Some i ->
  exists q, ParticleSystem.particlePool s !! i = Some q /\ Particle.active q = false.
Proof.
  unfold ParticleSystem.getParticle. intros Hg.
  apply fmap_Some in Hg as ([j q] & Hf & ->).
  apply list_find_Some in Hf as (Hq & Ha & _). eauto.
Qed.

Lemma getParticle_None (s : ParticleSystem.t) :
  ParticleSystem.getParticle s = None <->
  Forall (λ p, Particle.active p = true) (ParticleSystem.particlePool s).
Proof.
  unfold ParticleSystem.getParticle. rewrite fmap_None, list_find_None.
  apply Forall_proper; [|done]. intros p. by destruct (Particle.active p).
Qed.

(** The slots are all active exactly when the active count is the length of
    the pool. *)
Lemma activeCount_le (s : ParticleSystem.t) :
  (ParticleSystem.activeCount s <= length (ParticleSystem.particlePool s))%nat.
Proof. apply length_filter. Qed.

Lemma all_active_count (s : ParticleSystem.t) :
  Forall (λ p, Particle.active p = true) (ParticleSystem.particlePool s) <->
  ParticleSystem.activeCount s = length (ParticleSystem.particlePool s).
Proof.
  unfold ParticleSystem.activeCount, ParticleSystem.getActiveParticles.
  induction (ParticleSystem.particlePool s) as [|p l IH]; [done|].
  rewrite Forall_cons. destruct (Particle.active p) eqn:Hp.
  - rewrite filter_cons_True by done. simpl. rewrite IH. intuition lia.
  - rewrite filter_cons_False by (by rewrite Hp). simpl.
    pose proof (length_filter (λ p, Particle.active p = true) l).
    split; [by intros [? _]|lia].
Qed.

(** What [spawn] does: slot [i] receives a fresh active particle, nine draws
    are consumed, and nothing else in the engine changes. *)
Lemma spawn_spec (H : Host) (e : Qc) (i : nat) (s : ParticleSystem.t) (c : nat) :
  exists p',
    ParticleSystem.spawn H e i s c
    = (ParticleSystem.set_particlePool (<[i := p']> (ParticleSystem.particlePool s)) s,
       (9 + c)%nat)
    /\ Particle.active p' = true
    /\ Particle.life p'
       = Emission.lifeMin (ParticleSystem.emission s)
         + Math_random H (5 + c)
           * (Emission.lifeMax (ParticleSystem.emission s)
              - Emission.lifeMin (ParticleSystem.emission s))
    /\ Particle.maxLife p' = Particle.life p'
    /\ Particle.hue p'
       = js_rem (Emission.hue (ParticleSystem.emission s)
                 + (Math_random H (6 + c) - frac 1 2)
                   * Emission.hueVariation (ParticleSystem.emission s)
                 + AudioReactive.hueShift (ParticleSystem.audioReactive s))
                (frac 360 1).
Proof.
  eexists. unfold ParticleSystem.spawn, Particle.init, random.
  unfold mbind, rand_bind, mret, rand_ret. simpl.
  repeat split; reflexivity.
Qed.

Lemma spawn_pool (H : Host) (e : Qc) (i : nat) (s : ParticleSystem.t) (c : nat) :
  exists p',
    ParticleSystem.particlePool (ParticleSystem.spawn H e i s c).1
    = <[i := p']> (ParticleSystem.particlePool s)
    /\ Particle.active p' = true.
Proof.
  destruct (spawn_spec H e i s c) as (p' & -> & Ha & _). by exists p'.
Qed.

Lemma spawn_length (H : Host) (e : Qc) (i : nat) (s : ParticleSystem.t) (c : nat) :
  length (ParticleSystem.particlePool (ParticleSystem.spawn H e i s c).1)
  = length (ParticleSystem.particlePool s).
Proof.
  destruct (spawn_pool H e i s c) as (p' & -> & _). apply length_insert.
Qed.

(** A spawn writes a free slot only: the active slots keep their content. *)
Lemma spawn_keeps_active (H : Host) (e : Qc) (i : nat) (s : ParticleSystem.t)
    (c j : nat) (q : Particle.t) :
  ParticleSystem.getParticle s = Some i ->
  ParticleSystem.particlePool s !! j = Some q -> Particle.active q = true ->
  ParticleSystem.particlePool (ParticleSystem.spawn H e i s c).1 !! j = Some q.
Proof.
  intros Hg Hj Hq. destruct (getParticle_Some s i Hg) as (q0 & Hi & Hq0).
  destruct (spawn_pool H e i s c) as (p' & -> & _).
  rewrite list_lookup_insert_ne; [done|]. intros ->. congruence.
Qed.

Lemma spawn_activeCount (H : Host) (e : Qc) (i : nat) (s : ParticleSystem.t)
    (c : nat) :
  ParticleSystem.getParticle s = Some i ->
  ParticleSystem.activeCount (ParticleSystem.spawn H e i s c).1
  = S (ParticleSystem.activeCount s).
Proof.
  intros Hg. destruct (getParticle_Some s i Hg) as (q0 & Hi & Hq0).
  destruct (spawn_pool H e i s c) as (p' & Hpool & Hp').
  unfold ParticleSystem.activeCount, ParticleSystem.getActiveParticles.
  rewrite Hpool.
  rewrite insert_take_drop by (by eapply lookup_lt_Some).
  rewrite <- (take_drop_middle _ _ _ Hi) at 3.
  rewrite !filter_app, !length_app.
  rewrite filter_cons_True by done.
  rewrite (filter_cons_False _ q0) by (by rewrite Hq0).
  simpl. lia.
Qed.

(** Induction over the loop of [emit]: what every spawn into a free slot
    preserves, the loop preserves. *)
Lemma emit_loop_invariant (Inv : ParticleSystem.t -> Prop) (H : Host) (e : Qc) :
  (forall s i c, ParticleSystem.getParticle s = Some i -> Inv s ->
                 Inv (ParticleSystem.spawn H e i s c).1) ->
  forall n s c, Inv s -> Inv (ParticleSystem.emit_loop H e n s c).1.
Proof.
  intros Hstep. induction n as [|n IH]; intros s c Hs; [done|].
  simpl. destruct (ParticleSystem.getParticle s) as [i|] eqn:Hg; [|done].
  unfold mbind, rand_bind.
  specialize (Hstep s i c Hg Hs).
  destruct (ParticleSystem.spawn H e i s c) as [s' c']. by apply IH.
Qed.

(** With no free slot the loop returns at once: nothing is written and no
    draw is consumed. *)
Lemma emit_loop_full (H : Host) (e : Qc) (n : nat) (s : ParticleSystem.t) (c : nat) :
  ParticleSystem.getParticle s = None ->
  ParticleSystem.emit_loop H e n s c = (s, c).
Proof. intros Hg. destruct n; [done|]. simpl. by rewrite Hg. Qed.

(** The loop fills free slots until [n] are spawned or the pool is full. *)
Lemma emit_loop_activeCount (H : Host) (e : Qc) (n : nat) (s : ParticleSystem.t)
    (c : nat) :
  ParticleSystem.activeCount (ParticleSystem.emit_loop H e n s c).1
  = Nat.min (length (ParticleSystem.particlePool s))
            (ParticleSystem.activeCount s + n).
Proof.
  revert s c. induction n as [|n IH]; intros s c.
  - simpl. pose proof (activeCount_le s). lia.
  - simpl. destruct (ParticleSystem.getParticle s) as [i|] eqn:Hg.
    + unfold mbind, rand_bind.
      pose proof (spawn_activeCount H e i s c Hg) as Hc.
      pose proof (spawn_length H e i s c) as Hl.
      destruct (ParticleSystem.spawn H e i s c) as [s' c'].
      rewrite IH. simpl in *. rewrite Hc, Hl. lia.
    + apply getParticle_None, all_active_count in Hg. simpl. lia.
Qed.

Lemma emit_loop_length (H : Host) (e : Qc) (n : nat) (s : ParticleSystem.t)
    (c : nat) :
  length (ParticleSystem.particlePool (ParticleSystem.emit_loop H e n s c).1)
  = length (ParticleSystem.particlePool s).
Proof.
  apply (emit_loop_invariant
           (λ s', length (ParticleSystem.particlePool s')
                  = length (ParticleSystem.particlePool s))); [|done].
  intros s' i c' _ <-. apply spawn_length.
Qed.

Lemma emit_loop_keeps_active (H : Host) (e : Qc) (n : nat) (s : ParticleSystem.t)
    (c j : nat) (q : Particle.t) :
  ParticleSystem.particlePool s !! j = Some q -> Particle.active q = true ->
  ParticleSystem.particlePool (ParticleSystem.emit_loop H e n s c).1 !! j = Some q.
Proof.
  intros Hj Hq.
  apply (emit_loop_invariant
           (λ s', ParticleSystem.particlePool s' !! j = Some q)); [|done].
  intros s' i c' Hg Hj'. by apply spawn_keeps_active.
Qed.

Lemma clear_length (s : ParticleSystem.t) :
  length (ParticleSystem.particlePool (ParticleSystem.clear s))
  = length (ParticleSystem.particlePool s).
Proof. apply length_fmap. Qed.

Lemma run_calls_length (H : Host) (cs : list call) (s : ParticleSystem.t) (c : nat) :
  length (ParticleSystem.particlePool (run_calls H cs s c).1)
  = length (ParticleSystem.particlePool s).
Proof.
  revert s c. induction cs as [|k cs IH]; intros s c; [done|].
  simpl. unfold mbind, rand_bind.
  destruct (run_call H k s c) as [s' c'] eqn:Hk. rewrite IH.
  destruct k; simpl in Hk.
  - unfold ParticleSystem.emit in Hk.
    pose proof (emit_loop_length H audioEnergy
                  (Z.to_nat (Math_floor (count * (1 + audioEnergy
                     * AudioReactive.emissionMultiplier
                         (ParticleSystem.audioReactive s))))) s c) as Hl.
    by rewrite Hk in Hl.
  - injection Hk as <- <-. apply update_pool_length.
  - injection Hk as <- <-. apply clear_length.
Qed.

(** C1 (capacity invariant).  Let [s] be the engine reached from
    [new ParticleSystem(n)] by any sequence of [emit], [update] and [clear]
    calls, with any arguments.  Its pool still has [n] slots and at most [n]
    of them are active.  A further [emit] leaves every active slot as it is
    (no live particle is evicted), activates free slots only, as many as it
    was asked for or as are free, and, when all [n] slots are active, returns
    the engine unchanged without consuming a draw. *)
Theorem pool_capacity (H : Host) (n : nat) (cs : list call) (c0 : nat)
    (count audioEnergy : Qc) (c : nat) :
  let s := (run_calls H cs (ParticleSystem.new (Qc_of_Z (Z.of_nat n))) c0).1 in
  let s' := (ParticleSystem.emit H count audioEnergy s c).1 in
  length (ParticleSystem.particlePool s) = n
  /\ (ParticleSystem.activeCount s <= n)%nat
  /\ (ParticleSystem.activeCount s' <= n)%nat
  /\ ParticleSystem.activeCount s'
     = Nat.min n (ParticleSystem.activeCount s + actualCount count audioEnergy s)
  /\ (forall j q, ParticleSystem.particlePool s !! j = Some q ->
                  Particle.active q = true ->
                  ParticleSystem.particlePool s' !! j = Some q)
  /\ (ParticleSystem.activeCount s = n ->
      ParticleSystem.emit H count audioEnergy s c = (s, c)).
Proof.
  intros s s'.
  assert (Hlen : length (ParticleSystem.particlePool s) = n).
  { subst s. rewrite run_calls_length. simpl.
    by rewrite length_replicate, loop_bound_nat. }
  assert (Hcount : ParticleSystem.activeCount s'
            = Nat.min n (ParticleSystem.activeCount s
                         + actualCount count audioEnergy s)).
  { subst s'. unfold ParticleSystem.emit. rewrite emit_loop_activeCount.
    by rewrite Hlen. }
  split; [done|]. split; [rewrite <- Hlen; apply activeCount_le|].
  split; [lia|]. split; [done|]. split.
  - intros j q Hj Hq. subst s'. unfold ParticleSystem.emit.
    by apply emit_loop_keeps_active.
  - intros Hfull. unfold ParticleSystem.emit. apply emit_loop_full.
    apply getParticle_None, all_active_count. by rewrite Hlen.
Qed.

Lemma pool_capacity_witness :
  let s := (run_calls host_zero [Emit (frac 5 1) 0]
              (ParticleSystem.new (Qc_of_Z (Z.of_nat 2))) 0%nat).1 in
  length (ParticleSystem.particlePool s) = 2%nat
  /\ ParticleSystem.activeCount s = 2%nat
  /\ ParticleSystem.emit host_zero (frac 3 1) 1 s 18%nat = (s, 18%nat).
Proof.
  intros s.
  pose proof (pool_capacity host_zero 2 [Emit (frac 5 1) 0] 0 (frac 3 1) 1 18)
    as (Hlen & _ & _ & _ & _ & Hfull).
  fold s in Hlen, Hfull.
  assert (Hcount : ParticleSystem.activeCount s = 2%nat) by (by vm_compute).
  split; [exact Hlen|]. split; [exact Hcount|]. exact (Hfull Hcount).
Defined.

(** ** Ageing inside the frame loop *)

Section Vitals.

Variable H : Host.
Variable s : ParticleSystem.t.

Lemma applyMode_vitals (p : Particle.t) :
  same_vitals (ParticleSystem.applyMode H s p) p.
Proof.
  unfold ParticleSystem.applyMode, ParticleSystem.applyGravity,
    ParticleSystem.applyMagnetism, ParticleSystem.applyTurbulence,
    ParticleSystem.applyOrbital.
  repeat case_decide; done.
Qed.

Lemma applyAudio_vitals (b : option (list Qc)) (p : Particle.t) :
  same_vitals (ParticleSystem.applyAudio b p) p.
Proof.
  unfold ParticleSystem.applyAudio. destruct b as [b|]; [|done].
  case_decide; done.
Qed.

Lemma applyDamping_vitals (p : Particle.t) :
  same_vitals (ParticleSystem.applyDamping s p) p.
Proof. done. Qed.

Lemma handleBoundaries_vitals (p : Particle.t) :
  same_vitals (ParticleSystem.handleBoundaries s p) p.
Proof.
  unfold ParticleSystem.handleBoundaries, Particle.bounce, Particle.wrap.
  destruct (Physics.bounceEnabled _); [|destruct (Physics.wrapEnabled _)];
    repeat case_decide; done.
Qed.

Lemma update_vitals (w1 h1 w2 h2 dt : Qc) (p q : Particle.t) :
  same_vitals p q ->
  same_vitals (Particle.update w1 h1 dt p) (Particle.update w2 h2 dt q).
Proof.
  intros [Hl Ha]. unfold Particle.update. rewrite <- Ha.
  destruct (Particle.active p) eqn:Hp; simpl; [|split; congruence].
  rewrite <- Hl. by split.
Qed.

(** The loop body ages a particle as [Particle.update] alone does. *)
Lemma updateParticle_vitals (w h dt : Qc) (b : option (list Qc)) (p q : Particle.t) :
  same_vitals p q ->
  same_vitals (ParticleSystem.updateParticle H s dt b p) (Particle.update w h dt q).
Proof.
  intros [Hl Ha]. unfold ParticleSystem.updateParticle.
  destruct (handleBoundaries_vitals
              (Particle.update (ParticleSystem.width s) (ParticleSystem.height s) dt
                 (ParticleSystem.applyDamping s
                    (ParticleSystem.applyAudio b (ParticleSystem.applyMode H s p)))))
    as [Hl0 Ha0].
  destruct (applyMode_vitals p) as [Hl1 Ha1].
  destruct (applyAudio_vitals b (ParticleSystem.applyMode H s p)) as [Hl2 Ha2].
  destruct (update_vitals (ParticleSystem.width s) (ParticleSystem.height s) w h dt
              (ParticleSystem.applyDamping s
                 (ParticleSystem.applyAudio b (ParticleSystem.applyMode H s p))) q)
    as [Hl3 Ha3]; [split; simpl; congruence|].
  split; congruence.
Qed.

End Vitals.

Lemma same_vitals_count (l1 l2 : list Particle.t) :
  Forall2 same_vitals l1 l2 ->
  length (filter (λ p, Particle.active p = true) l1)
  = length (filter (λ p, Particle.active p = true) l2).
Proof.
  induction 1 as [|p q l1 l2 [_ Ha] _ IH]; [done|].
  destruct (Particle.active q) eqn:Hq.
  - rewrite !filter_cons_True by congruence. simpl. by rewrite IH.
  - rewrite !filter_cons_False by congruence. done.
Qed.

(** After [k] frames every slot has the life and the activity flag that [k]
    calls of [Particle.update] give to its initial content. *)
Lemma frames_vitals (H : Host) (w h : Qc) (k : nat) (s : ParticleSystem.t) :
  Forall2 same_vitals (ParticleSystem.particlePool (frames H k s))
          (advance w h k <$> ParticleSystem.particlePool s).
Proof.
  induction k as [|k IH].
  - rewrite (list_fmap_ext (advance w h 0) id _) by done.
    rewrite list_fmap_id. apply Forall_Forall2_diag, Forall_true. by split.
  - change (frames H (S k) s) with (ParticleSystem.update H 1 None (frames H k s)).
    rewrite update_pool.
    rewrite (list_fmap_ext (advance w h (S k))
               (Particle.update w h 1 ∘ advance w h k) _) by done.
    rewrite list_fmap_compose. unfold on_active.
    apply Forall2_fmap, (Forall2_impl _ _ _ _ IH).
    intros p q Hpq. destruct (Particle.active p) eqn:Hp.
    + by apply updateParticle_vitals.
    + destruct Hpq as [Hl Ha]. rewrite update_inactive by congruence. by split.
Qed.

Lemma frames_activeCount (H : Host) (k : nat) (s : ParticleSystem.t) :
  ParticleSystem.activeCount (frames H k s)
  = length (filter (λ p, Particle.active p = true)
              (advance 0 0 k <$> ParticleSystem.particlePool s)).
Proof. apply same_vitals_count, frames_vitals. Qed.

(** ** The end-to-end scenario *)

Lemma advance_inactive (w h : Qc) (k : nat) (p : Particle.t) :
  Particle.active p = false -> advance w h k p = p.
Proof.
  intros Hp. induction k as [|k IH]; [done|].
  rewrite advance_S, IH. by apply update_inactive.
Qed.

(** A particle of the default lifetime range is alive for fewer than 10000
    calls and dead from 20000 calls on. *)
Lemma default_lifetime_alive (w h : Qc) (k : nat) (p : Particle.t) :
  default_lifetime p -> (Z.of_nat k < 10000)%Z ->
  Particle.active (advance w h k p) = Particle.active p.
Proof.
  intros Hd Hk. destruct (Particle.active p) eqn:Hp.
  - destruct (Hd Hp) as [Hlo _].
    apply advance_alive; [done|].
    destruct (decide (death_step (Particle.life p) <= k)%nat) as [Hle|]; [|lia].
    exfalso. apply death_step_spec in Hle.
    assert (Hq : (inject_Z (Z.of_nat k) < inject_Z 10000)%Q)
      by (rewrite <- Zlt_Qlt; lia).
    change (inject_Z 10000) with 10000%Q in Hq. qc_lra.
  - by rewrite advance_inactive.
Qed.

Lemma default_lifetime_dead (w h : Qc) (k : nat) (p : Particle.t) :
  default_lifetime p -> (20000 <= Z.of_nat k)%Z ->
  Particle.active (advance w h k p) = false.
Proof.
  intros Hd Hk. destruct (Particle.active p) eqn:Hp.
  - destruct (Hd Hp) as [Hlo Hhi].
    assert (HL : 0 < Particle.life p) by qc_lra.
    assert (Hstep : (death_step (Particle.life p) <= k)%nat).
    { apply death_step_spec.
      assert (Hq : (inject_Z 20000 <= inject_Z (Z.of_nat k))%Q)
        by (rewrite <- Zle_Qle; lia).
      change (inject_Z 20000) with 20000%Q in Hq. qc_lra. }
    rewrite (advance_frozen w h k p Hp HL Hstep).
    by apply advance_death.
  - by rewrite advance_inactive.
Qed.

Lemma count_fmap_same (g : Particle.t -> Particle.t) (l : list Particle.t) :
  Forall (λ p, Particle.active (g p) = Particle.active p) l ->
  length (filter (λ p, Particle.active p = true) (g <$> l))
  = length (filter (λ p, Particle.active p = true) l).
Proof.
  induction 1 as [|p l Hp _ IH]; [done|].
  rewrite fmap_cons. destruct (Particle.active p) eqn:Ha.
  - rewrite !filter_cons_True by congruence. simpl. by rewrite IH.
  - rewrite !filter_cons_False by congruence. done.
Qed.

Lemma count_fmap_none (g : Particle.t -> Particle.t) (l : list Particle.t) :
  Forall (λ p, Particle.active (g p) = false) l ->
  length (filter (λ p, Particle.active p = true) (g <$> l)) = 0%nat.
Proof.
  induction 1 as [|p l Hp _ IH]; [done|].
  rewrite fmap_cons, filter_cons_False by congruence. done.
Qed.

(** With draws in [[0, 1)] and the default emission configuration, every
    particle that [emit] spawns has a lifetime in [[100, 200)]. *)
Lemma emit_default_lifetime (H : Host) (count e : Qc) (s : ParticleSystem.t) (c : nat) :
  (forall n, 0 <= Math_random H n /\ Math_random H n < 1) ->
  Emission.lifeMin (ParticleSystem.emission s) = frac 100 1 ->
  Emission.lifeMax (ParticleSystem.emission s) = frac 200 1 ->
  Forall default_lifetime (ParticleSystem.particlePool s) ->
  Forall default_lifetime
         (ParticleSystem.particlePool (ParticleSystem.emit H count e s c).1).
Proof.
  intros Hr Hmin Hmax Hs. unfold ParticleSystem.emit.
  apply (emit_loop_invariant
           (λ s', ParticleSystem.emission s' = ParticleSystem.emission s
                  /\ Forall default_lifetime (ParticleSystem.particlePool s')));
    [|done].
  intros s' i c' _ [Hem Hall].
  destruct (spawn_spec H e i s' c') as (p' & -> & _ & Hl & _). simpl.
  split; [done|]. apply Forall_insert; [done|].
  intros _. rewrite Hl, Hem, Hmin, Hmax.
  destruct (Hr (5 + c')%nat) as [H0 H1]. split; qc_lra.
Qed.

Lemma scenario_engine_count (H : Host) (c : nat) :
  ParticleSystem.activeCount (scenario_engine H c) = 5%nat.
Proof.
  unfold scenario_engine, ParticleSystem.emit. rewrite emit_loop_activeCount.
  by vm_compute.
Qed.

Lemma scenario_engine_lifetime (H : Host) (c : nat) :
  (forall n, 0 <= Math_random H n /\ Math_random H n < 1) ->
  Forall default_lifetime (ParticleSystem.particlePool (scenario_engine H c)).
Proof.
  intros Hr. unfold scenario_engine.
  apply emit_default_lifetime; [exact Hr|reflexivity|reflexivity|].
  unfold ParticleSystem.new. cbn [ParticleSystem.particlePool].
  apply Forall_replicate. intros Hp. discriminate Hp.
Qed.

Lemma frames_alive (H : Host) (k : nat) (s : ParticleSystem.t) :
  Forall default_lifetime (ParticleSystem.particlePool s) ->
  (Z.of_nat k < 10000)%Z ->
  ParticleSystem.activeCount (frames H k s) = ParticleSystem.activeCount s.
Proof.
  intros Hlife Hk. rewrite frames_activeCount, count_fmap_same; [done|].
  eapply Forall_impl; [exact Hlife|]. intros p Hp.
  by apply default_lifetime_alive.
Qed.

Lemma frames_dead (H : Host) (k : nat) (s : ParticleSystem.t) :
  Forall default_lifetime (ParticleSystem.particlePool s) ->
  (20000 <= Z.of_nat k)%Z ->
  ParticleSystem.activeCount (frames H k s) = 0%nat.
Proof.
  intros Hlife Hk. rewrite frames_activeCount. apply count_fmap_none.
  eapply Forall_impl; [exact Hlife|]. intros p Hp.
  by apply default_lifetime_dead.
Qed.

(** C3 (end-to-end scenario), on the code.  On the default engine of capacity
    10, with draws in [[0, 1)], one call [emit(5, 0)] yields exactly 5 active
    particles, as the specification says.  But their lifetimes, drawn in
    [[100, 200)], decay by [0.01] per update: after 250 calls of
    [update(1, null)], and after any number of calls below 10000, all 5 are
    still active; they are all inactive only from 20000 calls on. *)
Theorem default_lifetimes_outlast_250_updates (H : Host) (c : nat) :
  (forall n, 0 <= Math_random H n /\ Math_random H n < 1) ->
  ParticleSystem.activeCount (scenario_engine H c) = 5%nat
  /\ ParticleSystem.activeCount (frames H 250 (scenario_engine H c)) = 5%nat
  /\ (forall k, (Z.of_nat k < 10000)%Z ->
                ParticleSystem.activeCount (frames H k (scenario_engine H c)) = 5%nat)
  /\ (forall k, (20000 <= Z.of_nat k)%Z ->
                ParticleSystem.activeCount (frames H k (scenario_engine H c)) = 0%nat).
Proof.
  intros Hr.
  pose proof (scenario_engine_count H c) as Hcount.
  pose proof (scenario_engine_lifetime H c Hr) as Hlife.
  generalize dependent (scenario_engine H c). intros s Hcount Hlife.
  split; [exact Hcount|].
  split; [rewrite frames_alive; [exact Hcount|exact Hlife|lia]|].
  split.
  - intros k Hk. rewrite frames_alive; [exact Hcount|exact Hlife|exact Hk].
  - intros k Hk. by apply frames_dead.
Qed.

Lemma default_lifetimes_outlast_250_updates_witness :
  ParticleSystem.activeCount (scenario_engine host_half 0) = 5%nat
  /\ ParticleSystem.activeCount (frames host_half 250 (scenario_engine host_half 0))
     = 5%nat
  /\ (forall k, (Z.of_nat k < 10000)%Z ->
                ParticleSystem.activeCount (frames host_half k (scenario_engine host_half 0))
                = 5%nat)
  /\ (forall k, (20000 <= Z.of_nat k)%Z ->
                ParticleSystem.activeCount (frames host_half k (scenario_engine host_half 0))
                = 0%nat).
Proof.
  apply (default_lifetimes_outlast_250_updates host_half 0).
  intros n. split; by vm_compute.
Defined.

(** ** Level-of-detail sampling *)

Lemma this_div (a b : Qc) : (this (a / b) == this a / this b)%Q.
Proof.
  unfold Qcdiv, Qcinv. rewrite this_mult. simpl. by rewrite Qred_correct.
Qed.

Lemma Qc_of_Z_le (a b : Z) : Qc_of_Z a <= Qc_of_Z b <-> (a <= b)%Z.
Proof. unfold Qcle. by rewrite !this_of_Z, <- Zle_Qle. Qed.

Lemma Qc_of_Z_lt (a b : Z) : Qc_of_Z a < Qc_of_Z b <-> (a < b)%Z.
Proof. unfold Qclt. by rewrite !this_of_Z, <- Zlt_Qlt. Qed.

(** The product [i * (n / m)] for [0 <= i < m] and [0 < n] lies in
    [[0, n)]. *)
Lemma stride_range (i n m : Q) :
  (0 <= i -> i < m -> 0 < n -> 0 <= i * (n / m) /\ i * (n / m) < n)%Q.
Proof.
  intros Hi Him Hn.
  assert (Hm : (0 < m)%Q) by lra.
  assert (Hstep : (0 < n / m)%Q) by (apply Qlt_shift_div_l; lra).
  split.
  - apply Qmult_le_0_compat; lra.
  - assert (Hlt : (i * (n / m) < m * (n / m))%Q)
      by (apply Qmult_lt_compat_r; lra).
    assert (Heq : (m * (n / m) == n)%Q) by (field; lra).
    lra.
Qed.

Section LOD.

Variable n : nat.
Variable maxParticles : Qc.
Hypothesis more_active : ~ Qc_of_Z (Z.of_nat n) <= maxParticles.

(** Every index read by the sampling loop is a valid index of [active]. *)
Lemma lodIndex_range (i : nat) :
  (i < loop_bound maxParticles)%nat ->
  (0 <= ParticleSystem.lodIndex n maxParticles i < Z.of_nat n)%Z.
Proof.
  intros Hi. apply loop_bound_spec in Hi.
  apply Qcnot_le_lt in more_active.
  unfold Qclt in Hi, more_active. rewrite this_of_Z in Hi, more_active.
  assert (H0 : (0 <= inject_Z (Z.of_nat i))%Q)
    by (change 0%Q with (inject_Z 0); rewrite <- Zle_Qle; lia).
  destruct (stride_range (inject_Z (Z.of_nat i)) (inject_Z (Z.of_nat n))
              (this maxParticles)) as [Hlo Hhi]; [done|done|lra|].
  unfold ParticleSystem.lodIndex, Math_floor.
  set (v := Qc_of_Z (Z.of_nat i) * (Qc_of_Z (Z.of_nat n) / maxParticles)).
  assert (Hv : (this v == inject_Z (Z.of_nat i)
                          * (inject_Z (Z.of_nat n) / this maxParticles))%Q).
  { subst v. rewrite this_mult, this_div, !this_of_Z. reflexivity. }
  split.
  - change 0%Z with (Qfloor 0). apply Qfloor_resp_le. lra.
  - pose proof (Qfloor_le (this v)) as Hf.
    rewrite Zlt_Qlt. lra.
Qed.

(** The indices do not decrease along the loop. *)
Lemma lodIndex_mono (i j : nat) :
  (i <= j)%nat -> (j < loop_bound maxParticles)%nat ->
  (ParticleSystem.lodIndex n maxParticles i
   <= ParticleSystem.lodIndex n maxParticles j)%Z.
Proof.
  intros Hij Hj. apply loop_bound_spec in Hj.
  apply Qcnot_le_lt in more_active.
  unfold Qclt in Hj, more_active. rewrite this_of_Z in Hj, more_active.
  assert (H0 : (0 <= inject_Z (Z.of_nat j))%Q)
    by (change 0%Q with (inject_Z 0); rewrite <- Zle_Qle; lia).
  assert (Hq : (inject_Z (Z.of_nat i) <= inject_Z (Z.of_nat j))%Q)
    by (rewrite <- Zle_Qle; lia).
  assert (Hstep : (0 < inject_Z (Z.of_nat n) / this maxParticles)%Q)
    by (apply Qlt_shift_div_l; lra).
  unfold ParticleSystem.lodIndex, Math_floor. apply Qfloor_resp_le.
  rewrite !this_mult, this_div, !this_of_Z.
  apply Qmult_le_compat_r; lra.
Qed.

End LOD.

(** For a positive integer [m], [Math.floor(i * (n / m))] is the integer
    quotient of [i * n] by [m]. *)
Lemma lodIndex_quotient (n m i : nat) :
  (0 < m)%nat ->
  ParticleSystem.lodIndex n (Qc_of_Z (Z.of_nat m)) i
  = (Z.of_nat i * Z.of_nat n / Z.of_nat m)%Z.
Proof.
  intros Hm. unfold ParticleSystem.lodIndex, Math_floor.
  destruct (Z.of_nat m) as [|pm|pm] eqn:Em; [lia| |lia].
  assert (Hv : (this (Qc_of_Z (Z.of_nat i)
                      * (Qc_of_Z (Z.of_nat n) / Qc_of_Z (Z.pos pm)))
                == (Z.of_nat i * Z.of_nat n) # pm)%Q).
  { rewrite this_mult, this_div, !this_of_Z.
    unfold Qeq, Qdiv, Qmult, Qinv, inject_Z. simpl. lia. }
  rewrite Hv. reflexivity.
Qed.

(** The sampler for any number [maxParticles]: all the active particles when
    they are no more than [maxParticles]; otherwise one entry per iteration of
    the loop, each read at a valid index. *)
Lemma lod_general (maxParticles : Qc) (s : ParticleSystem.t) :
  let active := ParticleSystem.getActiveParticles s in
  let n := length active in
  let out := ParticleSystem.getActiveParticlesLOD maxParticles s in
  (Qc_of_Z (Z.of_nat n) <= maxParticles -> out = Some <$> active)
  /\ (~ Qc_of_Z (Z.of_nat n) <= maxParticles ->
      length out = loop_bound maxParticles
      /\ forall i, (i < loop_bound maxParticles)%nat ->
           out !! i
           = Some (active !! Z.to_nat (ParticleSystem.lodIndex n maxParticles i))
           /\ is_Some (active !! Z.to_nat (ParticleSystem.lodIndex n maxParticles i))).
Proof.
  intros active n out. subst out. unfold ParticleSystem.getActiveParticlesLOD.
  fold active. fold n. split.
  - intros Hle. by rewrite decide_True.
  - intros Hgt. rewrite decide_False by done. split.
    + by rewrite length_fmap, length_seq.
    + intros i Hi.
      pose proof (lodIndex_range n maxParticles Hgt i Hi) as [Hlo Hhi].
      split.
      * rewrite list_lookup_fmap, lookup_seq_lt by done. simpl.
        unfold ParticleSystem.at_index. by rewrite decide_False by lia.
      * apply lookup_lt_is_Some. fold n. lia.
Qed.

(** C5 (LOD sampling).  For every engine and every count [maxCount]: when
    the active particles are at most [maxCount], the sampler returns them
    all, unmodified and in order.  Otherwise it returns exactly [maxCount]
    entries; entry [i] is the active particle at index
    [floor(i * step)], [step = activeCount / maxCount], which is the integer
    quotient of [i * activeCount] by [maxCount] and a valid index; and these
    indices do not decrease with [i]. *)
Theorem lod_sampling (maxCount : nat) (s : ParticleSystem.t) :
  let active := ParticleSystem.getActiveParticles s in
  let n := length active in
  let mc := Qc_of_Z (Z.of_nat maxCount) in
  let out := ParticleSystem.getActiveParticlesLOD mc s in
  ((n <= maxCount)%nat -> out = Some <$> active)
  /\ ((maxCount < n)%nat ->
      length out = maxCount
      /\ (forall i, (i < maxCount)%nat ->
            ParticleSystem.lodIndex n mc i
            = (Z.of_nat i * Z.of_nat n / Z.of_nat maxCount)%Z
            /\ (0 <= ParticleSystem.lodIndex n mc i < Z.of_nat n)%Z
            /\ exists p, active !! Z.to_nat (ParticleSystem.lodIndex n mc i) = Some p
                         /\ out !! i = Some (Some p))
      /\ (forall i j, (i <= j)%nat -> (j < maxCount)%nat ->
            (ParticleSystem.lodIndex n mc i <= ParticleSystem.lodIndex n mc j)%Z)).
Proof.
  intros active n mc out.
  destruct (lod_general mc s) as [Hall Hsome]. fold active n out in Hall, Hsome.
  split.
  - intros Hle. apply Hall. subst mc. apply Qc_of_Z_le. lia.
  - intros Hlt.
    assert (Hgt : ~ Qc_of_Z (Z.of_nat n) <= mc).
    { subst mc. rewrite Qc_of_Z_le. lia. }
    destruct (Hsome Hgt) as [Hlen Hidx].
    assert (Hb : loop_bound mc = maxCount) by apply loop_bound_nat.
    rewrite Hb in Hlen, Hidx. split; [done|]. split.
    + intros i Hi. split; [apply lodIndex_quotient; lia|].
      split; [apply lodIndex_range; [done|by rewrite Hb]|].
      destruct (Hidx i Hi) as [Hout [p Hp]]. exists p. split; [done|].
      by rewrite Hout, Hp.
    + intros i j Hij Hj. apply lodIndex_mono; [done|done|by rewrite Hb].
Qed.

Lemma lod_sampling_witness :
  let s := scenario_engine host_half 0 in
  let active := ParticleSystem.getActiveParticles s in
  let out := ParticleSystem.getActiveParticlesLOD (Qc_of_Z (Z.of_nat 2)) s in
  ParticleSystem.getActiveParticlesLOD (Qc_of_Z (Z.of_nat 7)) s = Some <$> active
  /\ length out = 2%nat
  /\ (ParticleSystem.lodIndex (length active) (Qc_of_Z (Z.of_nat 2)) 0
      <= ParticleSystem.lodIndex (length active) (Qc_of_Z (Z.of_nat 2)) 1)%Z.
Proof.
  intros s active out.
  assert (Hn : length active = 5%nat) by (by vm_compute).
  destruct (lod_sampling 7 s) as [Hall _].
  destruct (lod_sampling 2 s) as [_ Hsome].
  fold active in Hall, Hsome. fold out in Hsome.
  split; [apply Hall; rewrite Hn; lia|].
  destruct Hsome as (Hlen & _ & Hmono); [rewrite Hn; lia|].
  split; [exact Hlen|]. apply Hmono; lia.
Defined.

(** ** The hue of a spawned particle *)

(** The remainder [a % b] for a positive [b]: strictly between [-b] and [b],
    with the sign of [a]. *)
Lemma trunc_frac (q : Qc) :
  (this q - inject_Z (trunc q) == Z.rem (Qnum q) (Z.pos (Qden q)) # Qden q)%Q.
Proof.
  unfold trunc. destruct q as [[n d] Hc]. simpl.
  pose proof (Z.quot_rem' n (Z.pos d)) as Hqr.
  unfold Qeq, Qminus, Qplus, Qopp, inject_Z. simpl. nia.
Qed.

Lemma js_rem_range (a b : Qc) :
  0 < b ->
  (- b < js_rem a b /\ js_rem a b < b)
  /\ (0 <= a -> 0 <= js_rem a b)
  /\ (a <= 0 -> js_rem a b <= 0).
Proof.
  intros Hb. unfold js_rem.
  set (q := a / b).
  assert (Ha : (this a == this b * this q)%Q).
  { subst q. rewrite this_div. unfold Qclt in Hb. rewrite this_0 in Hb.
    field. lra. }
  clearbody q.
  pose proof (trunc_frac q) as Hf.
  set (r := Z.rem (Qnum q) (Z.pos (Qden q))) in Hf.
  set (f := (r # Qden q)%Q) in Hf.
  assert (Hjs : (this (a - b * Qc_of_Z (trunc q)) == this b * f)%Q).
  { rewrite this_minus, this_mult, this_of_Z, Ha, <- Hf. ring. }
  assert (Hbound : (-1 < f /\ f < 1)%Q).
  { subst f r. unfold Qlt. simpl.
    destruct (Z.le_gt_cases 0 (Qnum q)) as [Hn|Hn].
    - pose proof (Z.rem_bound_pos (Qnum q) (Z.pos (Qden q)) Hn
                    (Pos2Z.is_pos _)). lia.
    - assert (Hn' : (Qnum q <= 0)%Z) by lia.
      pose proof (Z.rem_bound_pos_neg (Qnum q) (Z.pos (Qden q))
                    (Pos2Z.is_pos _) Hn'). lia. }
  assert (Hsign : ((0 <= this q -> 0 <= f) /\ (this q <= 0 -> f <= 0))%Q).
  { subst f r. unfold Qle. simpl. split; intros Hq.
    - assert (Hn : (0 <= Qnum q)%Z) by lia.
      pose proof (Z.rem_bound_pos (Qnum q) (Z.pos (Qden q)) Hn
                    (Pos2Z.is_pos _)). lia.
    - assert (Hn : (Qnum q <= 0)%Z) by lia.
      assert (Hd : Z.pos (Qden q) <> 0%Z) by lia.
      pose proof (Z.rem_nonpos (Qnum q) (Z.pos (Qden q)) Hd Hn). lia. }
  unfold Qclt, Qcle in *. rewrite ?this_opp, ?this_0 in *.
  rewrite !Hjs. destruct Hbound as [Hlo Hhi], Hsign as [Hpos Hneg].
  split; [split; nra|]. split.
  - intros H0. assert (Hq : (0 <= this q)%Q) by nra.
    specialize (Hpos Hq). nra.
  - intros H0. assert (Hq : (this q <= 0)%Q) by nra.
    specialize (Hneg Hq). nra.
Qed.

(** The hue [emit] assigns is always strictly between [-360] and [360]; it
    is in [[0, 360)] when the sum of base hue, variation and shift is not
    negative, and not positive otherwise. *)
Lemma spawn_hue_range (H : Host) (e : Qc) (i : nat) (s : ParticleSystem.t) (c : nat) :
  let total := Emission.hue (ParticleSystem.emission s)
               + (Math_random H (6 + c) - frac 1 2)
                 * Emission.hueVariation (ParticleSystem.emission s)
               + AudioReactive.hueShift (ParticleSystem.audioReactive s) in
  (i < length (ParticleSystem.particlePool s))%nat ->
  let p := slot i (ParticleSystem.spawn H e i s c).1 in
  Particle.hue p = js_rem total (frac 360 1)
  /\ - frac 360 1 < Particle.hue p /\ Particle.hue p < frac 360 1
  /\ (0 <= total -> 0 <= Particle.hue p)
  /\ (total <= 0 -> Particle.hue p <= 0).
Proof.
  intros total Hi p.
  assert (Hp : Particle.hue p = js_rem total (frac 360 1)).
  { subst p. destruct (spawn_spec H e i s c) as (p' & -> & _ & _ & _ & Hh).
    unfold slot. simpl. by rewrite list_lookup_insert_eq. }
  rewrite Hp.
  destruct (js_rem_range total (frac 360 1)) as ([Hlo Hhi] & Hpos & Hneg);
    [by vm_compute|].
  done.
Qed.

(** C9 (spawn hue range), on the code.  The hue of a spawned particle is
    computed by the formula of the specification, the remainder being the
    operator [%], whose result takes the sign of the dividend.  With the
    default emission (hue 200, variation 60), [hueShift = -180] and a draw of
    [0] for the hue, [emit(1, 0)] spawns a particle of hue
    [(200 - 30 - 180) % 360 = -10], outside the range 0-360. *)
Theorem hue_negative_under_shift :
  let s := engine_with_hueShift (frac (-180) 1) in
  let p := slot 0 (ParticleSystem.emit host_zero 1 0 s 0%nat).1 in
  Particle.active p = true
  /\ Particle.hue p
     = js_rem (frac 200 1 + (0 - frac 1 2) * frac 60 1 + frac (-180) 1) (frac 360 1)
  /\ Particle.hue p = frac (-10) 1
  /\ ~ 0 <= Particle.hue p.
Proof.
  intros s p.
  assert (Hhue : Particle.hue p = frac (-10) 1)
    by (apply Qc_is_canon; vm_compute; reflexivity).
  split; [by vm_compute|].
  split; [apply Qc_is_canon; vm_compute; reflexivity|].
  split; [exact Hhue|].
  rewrite Hhue. intros Hle. vm_compute in Hle. by apply Hle.
Qed.

(** * Further properties of the engine *)

(** ** The spatial hash *)

Lemma insert_cellSize (i : nat) (p : Particle.t) (h : SpatialHash.t) :
  SpatialHash.cellSize (SpatialHash.insert i p h) = SpatialHash.cellSize h.
Proof. reflexivity. Qed.

Lemma getCellKey_insert (x y : Qc) (i : nat) (p : Particle.t) (h : SpatialHash.t) :
  SpatialHash.getCellKey x y (SpatialHash.insert i p h) = SpatialHash.getCellKey x y h.
Proof. reflexivity. Qed.

(** An insertion appends the index to the bucket of the particle's cell and
    leaves the other buckets alone. *)
Lemma bucket_insert (key : Z * Z) (i : nat) (p : Particle.t) (h : SpatialHash.t) :
  bucket key (SpatialHash.insert i p h)
  = if decide (SpatialHash.getCellKey (Particle.x p) (Particle.y p) h = key)
    then bucket key h ++ [i] else bucket key h.
Proof.
  unfold bucket, SpatialHash.insert. simpl. rewrite lookup_insert.
  by case_decide; subst.
Qed.

Lemma bucket_clear (key : Z * Z) (h : SpatialHash.t) :
  bucket key (SpatialHash.clear h) = [].
Proof. unfold bucket, SpatialHash.clear. simpl. by rewrite lookup_empty. Qed.

(** The cell coordinate of a point within [r] of [x] is within
    [ceil(r / c)] cells of the cell coordinate of [x]. *)
Lemma cell_within (c x px r : Qc) :
  0 < c -> x - r <= px -> px <= x + r ->
  (- Math_ceil (r / c) <= Math_floor (px / c) - Math_floor (x / c)
   <= Math_ceil (r / c))%Z.
Proof.
  intros Hc Hlo Hhi. unfold Math_ceil, Math_floor.
  unfold Qclt, Qcle in *. rewrite ?this_minus, ?this_plus, ?this_0 in *.
  pose proof (this_div px c) as Epx. pose proof (this_div x c) as Ex.
  pose proof (this_div r c) as Er.
  set (PX := this (px / c)) in *. set (X := this (x / c)) in *.
  set (R := this (r / c)) in *.
  assert (Hic : (0 < / this c)%Q) by (by apply Qinv_lt_0_compat).
  unfold Qdiv in Epx, Ex, Er.
  assert (H1 : (PX <= X + R)%Q).
  { rewrite Epx, Ex, Er.
    assert (Hm : (this px * / this c <= (this x + this r) * / this c)%Q)
      by (apply Qmult_le_compat_r; lra).
    lra. }
  assert (H2 : (X - R <= PX)%Q).
  { rewrite Epx, Ex, Er.
    assert (Hm : ((this x - this r) * / this c <= this px * / this c)%Q)
      by (apply Qmult_le_compat_r; lra).
    lra. }
  pose proof (Qfloor_le PX) as Fpx. pose proof (Qlt_floor PX) as Gpx.
  pose proof (Qfloor_le X) as Fx. pose proof (Qlt_floor X) as Gx.
  pose proof (Qle_ceiling R) as CR.
  rewrite inject_Z_plus in Gpx, Gx. change (inject_Z 1) with 1%Q in Gpx, Gx.
  split.
  - assert (Hq : (inject_Z (Qfloor X) < inject_Z (Qfloor PX + 1 + Qceiling R))%Q).
    { rewrite !inject_Z_plus. change (inject_Z 1) with 1%Q. lra. }
    rewrite <- Zlt_Qlt in Hq. lia.
  - assert (Hq : (inject_Z (Qfloor PX) < inject_Z (Qfloor X + 1 + Qceiling R))%Q).
    { rewrite !inject_Z_plus. change (inject_Z 1) with 1%Q. lra. }
    rewrite <- Zlt_Qlt in Hq. lia.
Qed.

(** [getNearby] collects the buckets of the square of cells around the cell
    of [(x, y)]. *)
Lemma elem_of_getNearby (i : nat) (x y radius : Qc) (h : SpatialHash.t) :
  i ∈ SpatialHash.getNearby x y radius h <->
  exists dx dy : Z,
    (- Math_ceil (radius / SpatialHash.cellSize h) <= dx
     <= Math_ceil (radius / SpatialHash.cellSize h))%Z
    /\ (- Math_ceil (radius / SpatialHash.cellSize h) <= dy
        <= Math_ceil (radius / SpatialHash.cellSize h))%Z
    /\ i ∈ bucket ((Math_floor (x / SpatialHash.cellSize h) + dx)%Z,
                   (Math_floor (y / SpatialHash.cellSize h) + dy)%Z) h.
Proof.
  unfold SpatialHash.getNearby, bucket.
  set (R := Math_ceil (radius / SpatialHash.cellSize h)).
  rewrite list_elem_of_bind. split.
  - intros (dx & Hin & Hdx). apply list_elem_of_bind in Hin as (dy & Hin & Hdy).
    apply elem_of_seqZ in Hdx, Hdy. exists dx, dy. repeat split; try lia. done.
  - intros (dx & dy & Hdx & Hdy & Hin). exists dx. split.
    + apply list_elem_of_bind. exists dy. split; [done|].
      apply elem_of_seqZ. lia.
    + apply elem_of_seqZ. lia.
Qed.

Lemma getNearby_box (i : nat) (x y radius px py : Qc) (h : SpatialHash.t) :
  0 < SpatialHash.cellSize h ->
  x - radius <= px -> px <= x + radius ->
  y - radius <= py -> py <= y + radius ->
  i ∈ bucket (SpatialHash.getCellKey px py h) h ->
  i ∈ SpatialHash.getNearby x y radius h.
Proof.
  intros Hc Hx1 Hx2 Hy1 Hy2 Hin. apply elem_of_getNearby.
  pose proof (cell_within _ _ _ _ Hc Hx1 Hx2) as Hdx.
  pose proof (cell_within _ _ _ _ Hc Hy1 Hy2) as Hdy.
  exists (Math_floor (px / SpatialHash.cellSize h)
          - Math_floor (x / SpatialHash.cellSize h))%Z,
         (Math_floor (py / SpatialHash.cellSize h)
          - Math_floor (y / SpatialHash.cellSize h))%Z.
  split; [done|]. split; [done|].
  unfold SpatialHash.getCellKey in Hin.
  by replace (Math_floor (x / SpatialHash.cellSize h)
           + (Math_floor (px / SpatialHash.cellSize h)
              - Math_floor (x / SpatialHash.cellSize h)))%Z
    with (Math_floor (px / SpatialHash.cellSize h)) by lia;
     replace (Math_floor (y / SpatialHash.cellSize h)
           + (Math_floor (py / SpatialHash.cellSize h)
              - Math_floor (y / SpatialHash.cellSize h)))%Z
    with (Math_floor (py / SpatialHash.cellSize h)) by lia.
Qed.

(** ** The spatial hash after a frame *)

Section FrameHash.

Variable H : Host.
Variable s : ParticleSystem.t.
Variable deltaTime : Qc.
Variable audioBands : option (list Qc).

Let step := ParticleSystem.updateParticle H s deltaTime audioBands.

Lemma update_loop_cellSize (i : nat) (pool : list Particle.t) (c : nat)
    (sh : SpatialHash.t) :
  SpatialHash.cellSize
    (ParticleSystem.update_loop H s deltaTime audioBands i pool c sh).2
  = SpatialHash.cellSize sh.
Proof.
  revert i c sh. induction pool as [|p rest IH]; intros i c sh; [done|].
  simpl. destruct (Particle.active p).
  - specialize (IH (S i) (S c) (SpatialHash.insert i (step p) sh)).
    fold step.
    destruct (ParticleSystem.update_loop _ _ _ _ _ _ _ _) as [[rest' c'] sh'].
    simpl in *. by rewrite IH.
  - specialize (IH (S i) c sh).
    destruct (ParticleSystem.update_loop _ _ _ _ _ _ _ _) as [[rest' c'] sh'].
    simpl in *. by rewrite IH.
Qed.

(** After the loop a bucket holds what it held before and the indices of the
    slots that were active when the loop reached them, each in the cell of
    the position the loop body gave to its particle. *)
Lemma update_loop_bucket (i : nat) (pool : list Particle.t) (c : nat)
    (sh : SpatialHash.t) (key : Z * Z) (j : nat) :
  j ∈ bucket key (ParticleSystem.update_loop H s deltaTime audioBands i pool c sh).2
  <-> j ∈ bucket key sh
      \/ exists p, (i <= j)%nat /\ pool !! (j - i)%nat = Some p
                   /\ Particle.active p = true
                   /\ SpatialHash.getCellKey (Particle.x (step p))
                        (Particle.y (step p)) sh = key.
Proof.
  revert i c sh. induction pool as [|p rest IH]; intros i c sh.
  - simpl. split; [by left|]. intros [?|(p & _ & Hp & _)]; [done|].
    by rewrite lookup_nil in Hp.
  - simpl. destruct (Particle.active p) eqn:Hp.
    + specialize (IH (S i) (S c) (SpatialHash.insert i (step p) sh)).
      fold step.
      destruct (ParticleSystem.update_loop _ _ _ _ _ _ _ _) as [[rest' c'] sh'].
      simpl in *. rewrite IH, bucket_insert. clear IH. split.
      * intros [Hin|(q & Hle & Hq & Ha & Hk)].
        -- case_decide as Hkey; [|by left].
           apply elem_of_app in Hin as [Hin|Hin]; [by left|].
           apply list_elem_of_singleton in Hin as ->. right. exists p.
           rewrite Nat.sub_diag. by repeat split.
        -- right. exists q. split; [lia|].
           replace (j - i)%nat with (S (j - S i)) by lia. by repeat split.
      * intros [Hin|(q & Hle & Hq & Ha & Hk)].
        -- left. case_decide; [|done]. apply elem_of_app. by left.
        -- destruct (decide (j = i)) as [->|Hne].
           ++ rewrite Nat.sub_diag in Hq. simpl in Hq. injection Hq as <-.
              left. rewrite decide_True by done. apply elem_of_app. right.
              by apply list_elem_of_singleton.
           ++ right. exists q. split; [lia|].
              replace (j - i)%nat with (S (j - S i)) in Hq by lia.
              by repeat split.
    + specialize (IH (S i) c sh).
      destruct (ParticleSystem.update_loop _ _ _ _ _ _ _ _) as [[rest' c'] sh'].
      simpl in *. rewrite IH. clear IH. split.
      * intros [Hin|(q & Hle & Hq & Ha & Hk)]; [by left|].
        right. exists q. split; [lia|].
        replace (j - i)%nat with (S (j - S i)) by lia. by repeat split.
      * intros [Hin|(q & Hle & Hq & Ha & Hk)]; [by left|].
        destruct (decide (j = i)) as [->|Hne].
        -- rewrite Nat.sub_diag in Hq. simpl in Hq. congruence.
        -- right. exists q. split; [lia|].
           replace (j - i)%nat with (S (j - S i)) in Hq by lia.
           by repeat split.
Qed.

End FrameHash.

Lemma update_spatialHash (H : Host) (deltaTime : Qc) (audioBands : option (list Qc))
    (s : ParticleSystem.t) :
  ParticleSystem.spatialHash (ParticleSystem.update H deltaTime audioBands s)
  = (ParticleSystem.update_loop H (ParticleSystem.begin_frame s) deltaTime audioBands
       0 (ParticleSystem.particlePool s) 0
       (SpatialHash.clear (ParticleSystem.spatialHash s))).2.
Proof.
  unfold ParticleSystem.update. simpl.
  by destruct (ParticleSystem.update_loop _ _ _ _ _ _ _ _) as [[pool' c'] sh'].
Qed.

(** The content of a slot after [update], for a slot that was active. *)
Lemma slot_update_active (H : Host) (deltaTime : Qc) (audioBands : option (list Qc))
    (s : ParticleSystem.t) (j : nat) (p : Particle.t) :
  ParticleSystem.particlePool s !! j = Some p -> Particle.active p = true ->
  slot j (ParticleSystem.update H deltaTime audioBands s)
  = ParticleSystem.updateParticle H (ParticleSystem.begin_frame s) deltaTime
      audioBands p.
Proof.
  intros Hj Hp. unfold slot. rewrite update_pool. unfold on_active.
  rewrite list_lookup_fmap, Hj. simpl. by rewrite Hp.
Qed.

Lemma slot_update_inactive (H : Host) (deltaTime : Qc) (audioBands : option (list Qc))
    (s : ParticleSystem.t) (j : nat) (p : Particle.t) :
  ParticleSystem.particlePool s !! j = Some p -> Particle.active p = false ->
  slot j (ParticleSystem.update H deltaTime audioBands s) = p.
Proof.
  intros Hj Hp. unfold slot. rewrite update_pool. unfold on_active.
  rewrite list_lookup_fmap, Hj. simpl. by rewrite Hp.
Qed.

(** The buckets after [update]: index [j] is in the bucket of [key] exactly
    when slot [j] was active when [update] was called and [key] is the cell of
    the position the slot has after it. *)
Lemma update_bucket (H : Host) (deltaTime : Qc) (audioBands : option (list Qc))
    (s : ParticleSystem.t) (key : Z * Z) (j : nat) :
  let s' := ParticleSystem.update H deltaTime audioBands s in
  j ∈ bucket key (ParticleSystem.spatialHash s')
  <-> exists p, ParticleSystem.particlePool s !! j = Some p
                /\ Particle.active p = true
                /\ SpatialHash.getCellKey (Particle.x (slot j s'))
                     (Particle.y (slot j s')) (ParticleSystem.spatialHash s') = key.
Proof.
  intros s'. subst s'.
  assert (Hkey : forall x y,
            SpatialHash.getCellKey x y
              (ParticleSystem.spatialHash (ParticleSystem.update H deltaTime audioBands s))
            = SpatialHash.getCellKey x y
                (SpatialHash.clear (ParticleSystem.spatialHash s))).
  { intros x y. unfold SpatialHash.getCellKey.
    by rewrite update_spatialHash, update_loop_cellSize. }
  rewrite update_spatialHash at 1. rewrite update_loop_bucket. split.
  - intros [Hin|(p & _ & Hj & Hp & Hk)];
      [rewrite bucket_clear in Hin; by apply elem_of_nil in Hin|].
    rewrite Nat.sub_0_r in Hj. exists p. split; [done|]. split; [done|].
    by rewrite Hkey, (slot_update_active _ _ _ _ _ _ Hj Hp).
  - intros (p & Hj & Hp & Hk). right. exists p. split; [lia|].
    rewrite Nat.sub_0_r. split; [done|]. split; [done|].
    by rewrite Hkey, (slot_update_active _ _ _ _ _ _ Hj Hp) in Hk.
Qed.

(** X1 (broad phase of the spatial hash).  With a positive cell size, every
    index stored in the bucket of the cell of a point [(px, py)] that lies
    within [radius] of [(x, y)] in both coordinates is returned by
    [getNearby(x, y, radius)]: the query misses no particle of the disc of
    that radius. *)
Theorem getNearby_complete (i : nat) (x y radius px py : Qc) (h : SpatialHash.t) :
  0 < SpatialHash.cellSize h ->
  x - radius <= px -> px <= x + radius ->
  y - radius <= py -> py <= y + radius ->
  i ∈ bucket (SpatialHash.getCellKey px py h) h ->
  i ∈ SpatialHash.getNearby x y radius h.
Proof. apply getNearby_box. Qed.

Lemma getNearby_complete_witness :
  0%nat ∈ SpatialHash.getNearby (frac 100 1) (frac 100 1) (frac 30 1) sample_hash.
Proof.
  apply (getNearby_complete 0 (frac 100 1) (frac 100 1) (frac 30 1)
           (frac 120 1) (frac 80 1) sample_hash); try (by vm_compute).
  vm_compute. constructor.
Defined.

(** X2 (the spatial hash after a frame).  After [update], index [j] is in
    the bucket of a cell exactly when slot [j] was active when [update] was
    called and the cell is that of the position the slot has after the call;
    the cell size is unchanged and only indices of pool slots are stored. *)
Theorem hash_after_update (H : Host) (deltaTime : Qc) (audioBands : option (list Qc))
    (s : ParticleSystem.t) (key : Z * Z) (j : nat) :
  let s' := ParticleSystem.update H deltaTime audioBands s in
  (j ∈ bucket key (ParticleSystem.spatialHash s')
   <-> exists p, ParticleSystem.particlePool s !! j = Some p
                 /\ Particle.active p = true
                 /\ cell_of_slot j s' = key)
  /\ (j ∈ bucket key (ParticleSystem.spatialHash s') ->
      (j < length (ParticleSystem.particlePool s'))%nat)
  /\ SpatialHash.cellSize (ParticleSystem.spatialHash s')
     = SpatialHash.cellSize (ParticleSystem.spatialHash s).
Proof.
  intros s'. split; [apply update_bucket|]. split.
  - intros Hin. apply update_bucket in Hin as (p & Hj & _).
    subst s'. rewrite update_pool_length. by eapply lookup_lt_Some.
  - subst s'. by rewrite update_spatialHash, update_loop_cellSize.
Qed.

(** X3 (a frame, then a query).  With a positive cell size, after [update]
    the query [getNearby(x, y, radius)] returns the index of every slot that
    was active when [update] was called and whose position after the call
    lies within [radius] of [(x, y)] in both coordinates; and every index it
    returns is that of a slot that was active when [update] was called. *)
Theorem getNearby_after_update (H : Host) (deltaTime : Qc)
    (audioBands : option (list Qc)) (s : ParticleSystem.t) (x y radius : Qc) (j : nat) :
  0 < SpatialHash.cellSize (ParticleSystem.spatialHash s) ->
  let s' := ParticleSystem.update H deltaTime audioBands s in
  (forall p, ParticleSystem.particlePool s !! j = Some p ->
             Particle.active p = true ->
             x - radius <= Particle.x (slot j s') ->
             Particle.x (slot j s') <= x + radius ->
             y - radius <= Particle.y (slot j s') ->
             Particle.y (slot j s') <= y + radius ->
             j ∈ SpatialHash.getNearby x y radius (ParticleSystem.spatialHash s'))
  /\ (j ∈ SpatialHash.getNearby x y radius (ParticleSystem.spatialHash s') ->
      exists p, ParticleSystem.particlePool s !! j = Some p
                /\ Particle.active p = true).
Proof.
  intros Hc s'. split.
  - intros p Hj Hp Hx1 Hx2 Hy1 Hy2.
    apply (getNearby_box j x y radius (Particle.x (slot j s'))
             (Particle.y (slot j s'))); try done.
    + subst s'. by rewrite update_spatialHash, update_loop_cellSize.
    + apply update_bucket. by exists p.
  - intros Hin. apply elem_of_getNearby in Hin as (dx & dy & _ & _ & Hin).
    apply update_bucket in Hin as (p & Hj & Hp & _). by exists p.
Qed.

Lemma getNearby_after_update_witness :
  let s := engine_with (particle_at (frac 100 1) (frac 100 1) 1 1) in
  let s' := ParticleSystem.update host_zero 1 None s in
  0%nat ∈ SpatialHash.getNearby (frac 100 1) (frac 100 1) (frac 10 1)
            (ParticleSystem.spatialHash s').
Proof.
  intros s s'.
  assert (Hc : 0 < SpatialHash.cellSize (ParticleSystem.spatialHash s))
    by (by vm_compute).
  destruct (getNearby_after_update host_zero 1 None s (frac 100 1) (frac 100 1)
              (frac 10 1) 0 Hc) as [Hfound _].
  apply (Hfound (particle_at (frac 100 1) (frac 100 1) 1 1));
    try reflexivity; by vm_compute.
Defined.

(** X4 (a particle that dies in the frame stays in the hash).  A slot that
    is active when [update] is called and whose life does not exceed
    [0.01 * deltaTime] is inactive after the call, and its index is
    nevertheless stored in the spatial hash, in the cell of its last
    position: the hash rebuilt by a frame can hold particles that are no
    longer active. *)
Theorem dead_particle_in_hash (H : Host) (deltaTime : Qc)
    (audioBands : option (list Qc)) (s : ParticleSystem.t) (j : nat) (p : Particle.t) :
  ParticleSystem.particlePool s !! j = Some p ->
  Particle.active p = true ->
  Particle.life p <= frac 1 100 * deltaTime ->
  let s' := ParticleSystem.update H deltaTime audioBands s in
  Particle.active (slot j s') = false
  /\ j ∈ bucket (cell_of_slot j s') (ParticleSystem.spatialHash s').
Proof.
  intros Hj Hp Hlife s'. split.
  - subst s'. rewrite (slot_update_active _ _ _ _ _ _ Hj Hp).
    destruct (updateParticle_vitals H (ParticleSystem.begin_frame s) 0 0 deltaTime
                audioBands p p) as [_ ->]; [by split|].
    rewrite update_active by done. apply bool_decide_eq_false.
    apply Qcle_not_lt. qc_lra.
  - apply update_bucket. by exists p.
Qed.

Lemma dead_particle_in_hash_witness :
  let s := engine_with (spawned_at_rest 2 (frac 1 200)) in
  let s' := ParticleSystem.update host_zero 1 None s in
  Particle.active (slot 0 s') = false
  /\ 0%nat ∈ bucket (cell_of_slot 0 s') (ParticleSystem.spatialHash s').
Proof.
  apply (dead_particle_in_hash host_zero 1 None
           (engine_with (spawned_at_rest 2 (frac 1 200))) 0
           (spawned_at_rest 2 (frac 1 200))); try reflexivity.
  by vm_compute.
Defined.

(** ** What a frame does to the pool *)

Lemma updateParticle_active_before (H : Host) (s : ParticleSystem.t) (dt : Qc)
    (b : option (list Qc)) (p : Particle.t) :
  Particle.active (ParticleSystem.updateParticle H s dt b p) = true ->
  Particle.active p = true.
Proof.
  destruct (updateParticle_vitals H s 0 0 dt b p p) as [_ ->]; [by split|].
  destruct (Particle.active p) eqn:Hp; [done|].
  by rewrite update_inactive, Hp.
Qed.

Lemma count_on_active_le (f : Particle.t -> Particle.t) (l : list Particle.t) :
  (length (filter (λ p, Particle.active p = true) (on_active f l))
   <= length (filter (λ p, Particle.active p = true) l))%nat.
Proof.
  unfold on_active. induction l as [|p l IH]; [done|].
  rewrite fmap_cons. destruct (Particle.active p) eqn:Hp.
  - rewrite (filter_cons_True _ p) by done. simpl.
    destruct (Particle.active (f p)) eqn:Hf.
    + rewrite filter_cons_True by done. simpl. lia.
    + rewrite filter_cons_False by congruence. lia.
  - rewrite !filter_cons_False by congruence. done.
Qed.

(** X5 (frame statistics).  [update] increments the frame counter, keeps the
    number of slots, activates no slot, and sets [activeParticleCount] to the
    number of slots that were active when it was called: the count includes
    the particles that died during the frame, so it is an upper bound of the
    number of slots active after the call. *)
Theorem frame_statistics (H : Host) (deltaTime : Qc) (audioBands : option (list Qc))
    (s : ParticleSystem.t) :
  let s' := ParticleSystem.update H deltaTime audioBands s in
  ParticleSystem.activeParticleCount s' = ParticleSystem.activeCount s
  /\ (ParticleSystem.activeCount s' <= ParticleSystem.activeParticleCount s')%nat
  /\ (forall j, Particle.active (slot j s') = true -> Particle.active (slot j s) = true)
  /\ length (ParticleSystem.particlePool s') = length (ParticleSystem.particlePool s)
  /\ ParticleSystem.time s' = S (ParticleSystem.time s).
Proof.
  intros s'. subst s'. split; [apply update_activeParticleCount|]. split.
  - rewrite update_activeParticleCount.
    unfold ParticleSystem.activeCount, ParticleSystem.getActiveParticles.
    rewrite update_pool. apply count_on_active_le.
  - split; [|split; [apply update_pool_length|]].
    + intros j. unfold slot at 1. rewrite update_pool. unfold on_active, slot.
      rewrite list_lookup_fmap.
      destruct (ParticleSystem.particlePool s !! j) as [p|]; [|done]. simpl.
      destruct (Particle.active p) eqn:Hp; [done|]. by rewrite Hp.
    + unfold ParticleSystem.update.
      by destruct (ParticleSystem.update_loop _ _ _ _ _ _ _ _) as [[pool' c'] sh'].
Qed.

(** ** Acceleration is frame-scoped *)

Lemma handleBoundaries_acceleration (s : ParticleSystem.t) (p : Particle.t) :
  Particle.ax (ParticleSystem.handleBoundaries s p) = Particle.ax p
  /\ Particle.ay (ParticleSystem.handleBoundaries s p) = Particle.ay p.
Proof.
  unfold ParticleSystem.handleBoundaries, Particle.bounce, Particle.wrap.
  destruct (Physics.bounceEnabled _); [|destruct (Physics.wrapEnabled _)];
    repeat case_decide; done.
Qed.

Lemma updateParticle_acceleration (H : Host) (s : ParticleSystem.t) (dt : Qc)
    (b : option (list Qc)) (p : Particle.t) :
  Particle.active p = true ->
  Particle.ax (ParticleSystem.updateParticle H s dt b p) = 0
  /\ Particle.ay (ParticleSystem.updateParticle H s dt b p) = 0.
Proof.
  intros Hp. unfold ParticleSystem.updateParticle.
  set (p3 := ParticleSystem.applyDamping s
               (ParticleSystem.applyAudio b (ParticleSystem.applyMode H s p))).
  assert (Hp3 : Particle.active p3 = true).
  { destruct (applyMode_vitals H s p) as [_ Ha1].
    destruct (applyAudio_vitals b (ParticleSystem.applyMode H s p)) as [_ Ha2].
    subst p3. simpl. congruence. }
  destruct (handleBoundaries_acceleration s
              (Particle.update (ParticleSystem.width s) (ParticleSystem.height s)
                 dt p3)) as [-> ->].
  unfold Particle.update. by rewrite Hp3.
Qed.

(** Every field [spawn] gives to the particle it writes. *)
Lemma spawn_fields (H : Host) (e : Qc) (i : nat) (s : ParticleSystem.t) (c : nat) :
  let em := ParticleSystem.emission s in
  exists p',
    ParticleSystem.spawn H e i s c
    = (ParticleSystem.set_particlePool (<[i := p']> (ParticleSystem.particlePool s)) s,
       (9 + c)%nat)
    /\ Particle.active p' = true
    /\ Particle.x p'
       = Emission.x em * ParticleSystem.width s
         + (Math_random H c - frac 1 2) * Emission.spread em * ParticleSystem.width s
    /\ Particle.y p'
       = Emission.y em * ParticleSystem.height s
         + (Math_random H (1 + c) - frac 1 2) * Emission.spread em
           * ParticleSystem.height s
    /\ Particle.size p'
       = (Emission.sizeMin em
          + Math_random H (4 + c) * (Emission.sizeMax em - Emission.sizeMin em))
         * (1 + e * AudioReactive.sizeMultiplier (ParticleSystem.audioReactive s))
    /\ Particle.life p'
       = Emission.lifeMin em
         + Math_random H (5 + c) * (Emission.lifeMax em - Emission.lifeMin em)
    /\ Particle.maxLife p' = Particle.life p'
    /\ Particle.alpha p' = 1
    /\ Particle.ax p' = 0 /\ Particle.ay p' = 0
    /\ Particle.mass p' = Particle.size p' * frac 1 10.
Proof.
  intros em. eexists. unfold ParticleSystem.spawn, Particle.init, random.
  unfold mbind, rand_bind, mret, rand_ret. simpl.
  repeat split; reflexivity.
Qed.

(** A linear blend [a + r * (b - a)] with [0 <= r <= 1] lies between [a] and
    [b]. *)
Lemma blend_range (a b r : Qc) :
  0 <= r -> r <= 1 -> a <= b -> a <= a + r * (b - a) /\ a + r * (b - a) <= b.
Proof.
  intros H0 H1 Hab. qc2q. split; nra.
Qed.

Lemma spawn_freshly (H : Host) (e : Qc) (i : nat) (s : ParticleSystem.t) (c : nat) :
  (forall n, 0 <= Math_random H n /\ Math_random H n < 1) ->
  exists p',
    ParticleSystem.spawn H e i s c
    = (ParticleSystem.set_particlePool (<[i := p']> (ParticleSystem.particlePool s)) s,
       (9 + c)%nat)
    /\ freshly_spawned s e p'.
Proof.
  intros Hr.
  destruct (spawn_fields H e i s c)
    as (p' & Hs & Ha & Hx & Hy & Hsz & Hl & Hm & Hal & Hax & Hay & Hmass).
  exists p'. split; [done|]. unfold freshly_spawned.
  split; [done|]. split; [done|]. split; [done|]. split; [done|].
  split; [done|]. split; [done|].
  split; [|split; [|split]].
  - intros Hmm. rewrite Hl. destruct (Hr (5 + c)%nat) as [H0 H1].
    apply blend_range; [done| |done]. by apply Qclt_le_weak.
  - intros Hmm Hk. rewrite Hsz. destruct (Hr (4 + c)%nat) as [H0 H1].
    destruct (blend_range _ _ _ H0 (Qclt_le_weak _ _ H1) Hmm) as [Hlo Hhi].
    split; apply Qcmult_le_compat_r; done.
  - intros Hsw. rewrite Hx. destruct (Hr c) as [H0 H1].
    set (sw := Emission.spread (ParticleSystem.emission s) * ParticleSystem.width s)
      in *.
    replace ((Math_random H c - frac 1 2) * Emission.spread (ParticleSystem.emission s)
             * ParticleSystem.width s)
      with ((Math_random H c - frac 1 2) * sw) by (subst sw; ring).
    clearbody sw. qc2q. split; nra.
  - intros Hsw. rewrite Hy. destruct (Hr (1 + c)%nat) as [H0 H1].
    set (sh := Emission.spread (ParticleSystem.emission s) * ParticleSystem.height s)
      in *.
    replace ((Math_random H (1 + c) - frac 1 2)
             * Emission.spread (ParticleSystem.emission s) * ParticleSystem.height s)
      with ((Math_random H (1 + c) - frac 1 2) * sh) by (subst sh; ring).
    clearbody sh. qc2q. split; nra.
Qed.

(** Induction over a sequence of calls. *)
Lemma run_calls_invariant (Inv : ParticleSystem.t -> Prop) (H : Host) :
  (forall k s c, Inv s -> Inv (run_call H k s c).1) ->
  forall cs s c, Inv s -> Inv (run_calls H cs s c).1.
Proof.
  intros Hstep. induction cs as [|k cs IH]; intros s c Hs; [done|].
  simpl. unfold mbind, rand_bind.
  specialize (Hstep k s c Hs).
  destruct (run_call H k s c) as [s' c']. by apply IH.
Qed.

(** X6 (acceleration is frame-scoped).  In every engine reached from the
    constructor by [emit], [update] and [clear] calls, every slot of the pool
    has a zero acceleration accumulator: a force applied during a frame never
    carries over to the next one. *)
Theorem acceleration_reset_between_frames (H : Host) (maxParticles : Qc)
    (cs : list call) (c0 : nat) :
  no_pending_acceleration
    (run_calls H cs (ParticleSystem.new maxParticles) c0).1.
Proof.
  apply run_calls_invariant.
  - intros k s c Hs. destruct k as [count e|dt b|]; simpl.
    + unfold ParticleSystem.emit.
      apply (emit_loop_invariant no_pending_acceleration); [|done].
      intros s' i c' _ Hs'.
      destruct (spawn_fields H e i s' c')
        as (p' & -> & _ & _ & _ & _ & _ & _ & _ & Hax & Hay & _).
      unfold no_pending_acceleration in *. simpl. by apply Forall_insert.
    + unfold no_pending_acceleration in *. rewrite update_pool. unfold on_active.
      apply Forall_fmap. eapply Forall_impl; [exact Hs|]. intros p Hp. simpl.
      destruct (Particle.active p) eqn:Ha; [|done].
      by apply updateParticle_acceleration.
    + unfold no_pending_acceleration in *. simpl.
      apply Forall_fmap. eapply Forall_impl; [exact Hs|]. by intros p Hp.
  - unfold no_pending_acceleration. simpl. by apply Forall_replicate.
Qed.

(** ** What [emit] spawns *)

Lemma freshly_spawned_config (s1 s2 : ParticleSystem.t) (e : Qc) (p : Particle.t) :
  ParticleSystem.emission s1 = ParticleSystem.emission s2 ->
  ParticleSystem.audioReactive s1 = ParticleSystem.audioReactive s2 ->
  ParticleSystem.width s1 = ParticleSystem.width s2 ->
  ParticleSystem.height s1 = ParticleSystem.height s2 ->
  freshly_spawned s1 e p -> freshly_spawned s2 e p.
Proof.
  unfold freshly_spawned. by intros -> -> -> ->.
Qed.

Lemma emit_loop_fresh (H : Host) (e : Qc) (n : nat) (s : ParticleSystem.t) (c : nat) :
  (forall n, 0 <= Math_random H n /\ Math_random H n < 1) ->
  forall j p',
    ParticleSystem.particlePool (ParticleSystem.emit_loop H e n s c).1 !! j = Some p' ->
    ParticleSystem.particlePool s !! j = Some p' \/ freshly_spawned s e p'.
Proof.
  intros Hr.
  apply (emit_loop_invariant
           (λ s', (ParticleSystem.emission s' = ParticleSystem.emission s
                   /\ ParticleSystem.audioReactive s' = ParticleSystem.audioReactive s
                   /\ ParticleSystem.width s' = ParticleSystem.width s
                   /\ ParticleSystem.height s' = ParticleSystem.height s)
                  /\ forall j p', ParticleSystem.particlePool s' !! j = Some p' ->
                       ParticleSystem.particlePool s !! j = Some p'
                       \/ freshly_spawned s e p')); [|by auto].
  intros s' i c' _ [(He & Ha & Hw & Hh) Hall].
  destruct (spawn_freshly H e i s' c' Hr) as (q & -> & Hq). simpl.
  split; [done|]. intros j p' Hj.
  apply list_lookup_insert_Some in Hj as [(-> & -> & _)|[_ Hj]]; [|by apply Hall].
  right. by apply (freshly_spawned_config s').
Qed.

(** X7 (what [emit] spawns).  With draws in [[0, 1)], after
    [emit(count, audioEnergy)] every slot either holds what it held before or
    a freshly spawned particle: active, [maxLife = life] within
    [[lifeMin, lifeMax]], [alpha = 1], no acceleration, [mass = 0.1 * size],
    size within [[sizeMin, sizeMax]] scaled by [1 + audioEnergy *
    sizeMultiplier], and a position within half the spread of the emission
    point in each coordinate. *)
Theorem emit_spawns_fresh (H : Host) (count e : Qc) (s : ParticleSystem.t)
    (c j : nat) (p' : Particle.t) :
  (forall n, 0 <= Math_random H n /\ Math_random H n < 1) ->
  ParticleSystem.particlePool (ParticleSystem.emit H count e s c).1 !! j = Some p' ->
  ParticleSystem.particlePool s !! j = Some p' \/ freshly_spawned s e p'.
Proof.
  intros Hr. unfold ParticleSystem.emit. by apply emit_loop_fresh.
Qed.

Lemma emit_spawns_fresh_witness :
  let s := ParticleSystem.new (frac 10 1) in
  let p' := slot 0 (ParticleSystem.emit host_half (frac 5 1) 0 s 0%nat).1 in
  ParticleSystem.particlePool s !! 0%nat = Some p' \/ freshly_spawned s 0 p'.
Proof.
  intros s p'.
  apply (emit_spawns_fresh host_half (frac 5 1) 0 s 0 0 p').
  - intros n. split; by vm_compute.
  - reflexivity.
Defined.

(** X8 ([emit] of less than one particle).  When
    [count * (1 + audioEnergy * emissionMultiplier)] is below [1], in
    particular when it is zero or negative, [emit] returns the engine
    unchanged and consumes no draw. *)
Theorem emit_below_one (H : Host) (count e : Qc) (s : ParticleSystem.t) (c : nat) :
  count * (1 + e * AudioReactive.emissionMultiplier (ParticleSystem.audioReactive s)) < 1 ->
  ParticleSystem.emit H count e s c = (s, c).
Proof.
  intros Hlt. unfold ParticleSystem.emit, Math_floor.
  set (v := count * (1 + e * AudioReactive.emissionMultiplier
                             (ParticleSystem.audioReactive s))) in *.
  assert (Hz : (Qfloor v <= 0)%Z).
  { pose proof (Qfloor_le v) as Hf. unfold Qclt in Hlt. rewrite this_1 in Hlt.
    assert (Hq : (inject_Z (Qfloor v) < inject_Z 1)%Q)
      by (change (inject_Z 1) with 1%Q; lra).
    rewrite <- Zlt_Qlt in Hq. lia. }
  by replace (Z.to_nat (Qfloor v)) with 0%nat by lia.
Qed.

Lemma emit_below_one_witness :
  ParticleSystem.emit host_half (frac 1 2) (frac 1 2) (ParticleSystem.new (frac 10 1)) 0%nat
  = (ParticleSystem.new (frac 10 1), 0%nat).
Proof.
  apply (emit_below_one host_half (frac 1 2) (frac 1 2)
           (ParticleSystem.new (frac 10 1)) 0).
  by vm_compute.
Defined.

(** ** The order in which slots are reused *)

(** In a pool whose active slots are the first [k], [getParticle] returns
    slot [k], or nothing when [k] is the length of the pool. *)
Lemma getParticle_prefix (s : ParticleSystem.t) (k : nat) :
  prefix_active k (ParticleSystem.particlePool s) ->
  (k <= length (ParticleSystem.particlePool s))%nat ->
  ParticleSystem.getParticle s
  = if decide (k < length (ParticleSystem.particlePool s))%nat then Some k else None.
Proof.
  intros Hpre Hk. case_decide as Hlt.
  - destruct (lookup_lt_is_Some_2 _ _ Hlt) as [q Hq].
    unfold ParticleSystem.getParticle.
    assert (Hfind : list_find (λ p, Particle.active p = false)
                      (ParticleSystem.particlePool s) = Some (k, q)).
    { apply list_find_Some. split; [done|]. split.
      - destruct (Particle.active q) eqn:Ha; [|done].
        apply (Hpre k q Hq) in Ha. lia.
      - intros j y Hj Hjk Hy. assert (Ha : Particle.active y = true)
          by (by apply (Hpre j y Hj)). congruence. }
    by rewrite Hfind.
  - apply getParticle_None. apply Forall_forall. intros p Hp.
    apply list_elem_of_lookup in Hp as [j Hj].
    apply (Hpre j p Hj). apply lookup_lt_Some in Hj. lia.
Qed.

Lemma emit_loop_prefix (H : Host) (e : Qc) (n : nat) (s : ParticleSystem.t)
    (c k : nat) :
  prefix_active k (ParticleSystem.particlePool s) ->
  (k <= length (ParticleSystem.particlePool s))%nat ->
  prefix_active (Nat.min (length (ParticleSystem.particlePool s)) (k + n))
                (ParticleSystem.particlePool (ParticleSystem.emit_loop H e n s c).1).
Proof.
  revert s c k. induction n as [|n IH]; intros s c k Hpre Hk.
  - simpl. by replace (Nat.min _ (k + 0)) with k by lia.
  - simpl. rewrite (getParticle_prefix s k Hpre Hk). case_decide as Hlt.
    + unfold mbind, rand_bind.
      destruct (spawn_pool H e k s c) as (p' & Hpool & Hp').
      destruct (ParticleSystem.spawn H e k s c) as [s' c'] eqn:Hs. simpl in Hpool.
      assert (Hlen : length (ParticleSystem.particlePool s')
                     = length (ParticleSystem.particlePool s))
        by (rewrite Hpool; apply length_insert).
      replace (Nat.min (length (ParticleSystem.particlePool s)) (k + S n))
        with (Nat.min (length (ParticleSystem.particlePool s')) (S k + n)) by lia.
      apply IH; [|lia].
      intros j q Hj. rewrite Hpool in Hj.
      apply list_lookup_insert_Some in Hj as [(-> & -> & _)|[Hne Hj]].
      * split; [lia|done].
      * rewrite (Hpre j q Hj). lia.
    + simpl. by replace (Nat.min _ (k + S n)) with k by lia.
Qed.

Lemma all_inactive_prefix (pool : list Particle.t) :
  Forall (λ p, Particle.active p = false) pool -> prefix_active 0 pool.
Proof.
  intros Hall j p Hj. rewrite Forall_lookup in Hall.
  rewrite (Hall j p Hj). split; [done|lia].
Qed.

Lemma emit_fills_prefix (H : Host) (count e : Qc) (s : ParticleSystem.t)
    (c j : nat) :
  Forall (λ p, Particle.active p = false) (ParticleSystem.particlePool s) ->
  (j < length (ParticleSystem.particlePool s))%nat ->
  Particle.active (slot j (ParticleSystem.emit H count e s c).1) = true
  <-> (j < actualCount count e s)%nat.
Proof.
  intros Hall Hj. unfold ParticleSystem.emit.
  pose proof (emit_loop_prefix H e (actualCount count e s) s c 0
                (all_inactive_prefix _ Hall) ltac:(lia)) as Hpre.
  fold (actualCount count e s).
  pose proof (emit_loop_length H e (actualCount count e s) s c) as Hlen.
  destruct (lookup_lt_is_Some_2
              (ParticleSystem.particlePool
                 (ParticleSystem.emit_loop H e (actualCount count e s) s c).1) j)
    as [q Hq]; [lia|].
  unfold slot. rewrite Hq. simpl. rewrite (Hpre j q Hq). lia.
Qed.

(** X9 (slots are filled from the lowest index).  On a pool with no active
    slot, [emit(count, audioEnergy)] activates exactly the slots of index
    below the number of particles it was asked for: slot [j] of the pool is
    active after the call if and only if [j] is below
    [floor(count * (1 + audioEnergy * emissionMultiplier))]. *)
Theorem emit_fills_lowest_slots (H : Host) (count e : Qc) (s : ParticleSystem.t)
    (c j : nat) :
  Forall (λ p, Particle.active p = false) (ParticleSystem.particlePool s) ->
  (j < length (ParticleSystem.particlePool s))%nat ->
  Particle.active (slot j (ParticleSystem.emit H count e s c).1) = true
  <-> (j < actualCount count e s)%nat.
Proof. apply emit_fills_prefix. Qed.

Lemma emit_fills_lowest_slots_witness :
  let s' := (ParticleSystem.emit host_half (frac 5 1) 0
               (ParticleSystem.new (frac 10 1)) 0%nat).1 in
  (Particle.active (slot 4 s') = true
   <-> (4 < actualCount (frac 5 1) 0 (ParticleSystem.new (frac 10 1)))%nat)
  /\ (Particle.active (slot 5 s') = true
      <-> (5 < actualCount (frac 5 1) 0 (ParticleSystem.new (frac 10 1)))%nat).
Proof.
  assert (Hall : Forall (λ p, Particle.active p = false)
                   (ParticleSystem.particlePool (ParticleSystem.new (frac 10 1))))
    by (by apply Forall_replicate).
  split.
  - apply (emit_fills_lowest_slots host_half (frac 5 1) 0
             (ParticleSystem.new (frac 10 1)) 0 4 Hall). vm_compute. lia.
  - apply (emit_fills_lowest_slots host_half (frac 5 1) 0
             (ParticleSystem.new (frac 10 1)) 0 5 Hall). vm_compute. lia.
Defined.

(** ** Clearing the pool *)

Lemma clear_all_inactive (s : ParticleSystem.t) :
  Forall (λ p, Particle.active p = false)
         (ParticleSystem.particlePool (ParticleSystem.clear s)).
Proof. simpl. apply Forall_fmap, Forall_true. by intros p. Qed.

(** X10 ([clear], then [emit]).  [clear] switches every slot off, keeps the
    number of slots and resets [activeParticleCount]; a following
    [emit(count, audioEnergy)] then leaves exactly
    [min(slots, floor(count * (1 + audioEnergy * emissionMultiplier)))]
    active particles, whatever the pool held before. *)
Theorem clear_then_emit (H : Host) (count e : Qc) (s : ParticleSystem.t) (c : nat) :
  let s0 := ParticleSystem.clear s in
  ParticleSystem.activeCount s0 = 0%nat
  /\ ParticleSystem.activeParticleCount s0 = 0%nat
  /\ length (ParticleSystem.particlePool s0) = length (ParticleSystem.particlePool s)
  /\ ParticleSystem.activeCount (ParticleSystem.emit H count e s0 c).1
     = Nat.min (length (ParticleSystem.particlePool s)) (actualCount count e s).
Proof.
  intros s0.
  assert (Hzero : ParticleSystem.activeCount s0 = 0%nat).
  { pose proof (clear_all_inactive s) as Hall. fold s0 in Hall.
    unfold ParticleSystem.activeCount, ParticleSystem.getActiveParticles.
    induction Hall as [|p l Hp _ IH]; [done|].
    by rewrite filter_cons_False by congruence. }
  split; [done|]. split; [done|]. split; [apply clear_length|].
  unfold ParticleSystem.emit. rewrite emit_loop_activeCount, Hzero.
  subst s0. by rewrite clear_length.
Qed.

(** ** Both boundary policies keep a particle on the canvas *)





(** ** The opacity of a particle *)

(** X12 (alpha follows life).  For an active particle with [0 < maxLife],
    [life <= maxLife] and a non-negative [deltaTime], one call of
    [Particle.update] leaves [life <= maxLife] and [maxLife] unchanged and
    sets [alpha] within [[0, 1]]; [alpha] is [0] exactly when the call
    switched the particle off. *)
Theorem alpha_follows_life (w h dt : Qc) (p : Particle.t) :
  Particle.active p = true ->
  0 < Particle.maxLife p -> Particle.life p <= Particle.maxLife p -> 0 <= dt ->
  let p' := Particle.update w h dt p in
  Particle.maxLife p' = Particle.maxLife p
  /\ Particle.life p' <= Particle.maxLife p'
  /\ (0 <= Particle.alpha p' /\ Particle.alpha p' <= 1)
  /\ (Particle.alpha p' = 0 <-> Particle.active p' = false).
Proof.
  intros Hp HM Hl Hdt p'. subst p'.
  rewrite update_alpha, update_active, update_life, update_maxLife by done.
  set (l1 := Particle.life p - frac 1 100 * dt).
  assert (Hl1 : l1 <= Particle.maxLife p) by (subst l1; qc_lra).
  assert (Hdiv : forall a, (0 < a <-> 0 < a / Particle.maxLife p)
                           /\ (a <= Particle.maxLife p -> a / Particle.maxLife p <= 1)).
  { intros a. unfold Qclt, Qcle in *. rewrite !this_div, ?this_0, ?this_1 in *.
    set (M := this (Particle.maxLife p)) in *. set (A := this a).
    assert (HiM : (0 < / M)%Q) by (by apply Qinv_lt_0_compat).
    unfold Qdiv. split; [split|].
    - intros HA. by apply Qmult_lt_0_compat.
    - intros HA. assert (Hm : (0 * M < A * / M * M)%Q)
        by (apply Qmult_lt_compat_r; lra).
      assert (He : (A * / M * M == A)%Q) by (field; lra). lra.
    - intros HA. assert (Hm : (A * / M <= M * / M)%Q)
        by (apply Qmult_le_compat_r; lra).
      assert (He : (M * / M == 1)%Q) by (field; lra). lra. }
  destruct (Hdiv l1) as [[Hpos1 Hpos2] Hle1].
  split; [done|]. split; [done|].
  unfold Math_max. destruct (decide (0 < l1 / Particle.maxLife p)) as [Hq|Hq].
  - split; [split; [by apply Qclt_le_weak|by apply Hle1]|].
    rewrite bool_decide_eq_false. split.
    + intros Heq. rewrite Heq in Hq. by apply (irreflexivity Qclt) in Hq.
    + intros Hn. destruct Hn. by apply Hpos2.
  - split; [split; [apply Qcle_refl|by vm_compute]|].
    rewrite bool_decide_eq_false. split; [|done].
    intros _ Hpos. by apply Hq, Hpos1.
Qed.

Lemma alpha_follows_life_witness :
  let p' := Particle.update 0 0 1 (spawned_at_rest 2 (frac 1 200)) in
  Particle.maxLife p' = frac 1 200
  /\ Particle.life p' <= Particle.maxLife p'
  /\ (0 <= Particle.alpha p' /\ Particle.alpha p' <= 1)
  /\ (Particle.alpha p' = 0 <-> Particle.active p' = false).
Proof.
  apply (alpha_follows_life 0 0 1 (spawned_at_rest 2 (frac 1 200)));
    try reflexivity; by vm_compute.
Defined.

(** ** The emission point *)

Lemma clamp_unit (v : Qc) :
  (0 <= Math_max 0 (Math_min 1 v) /\ Math_max 0 (Math_min 1 v) <= 1)
  /\ (0 <= v -> v <= 1 -> Math_max 0 (Math_min 1 v) = v)
  /\ (v < 0 -> Math_max 0 (Math_min 1 v) = 0)
  /\ (1 < v -> Math_max 0 (Math_min 1 v) = 1).
Proof.
  unfold Math_max, Math_min.
  repeat case_decide; repeat split; intros; try done; qc_lra.
Qed.

(** X13 ([setEmissionPosition] clamps).  Whatever its arguments,
    [setEmissionPosition(x, y)] stores coordinates within [[0, 1]]: an
    argument within the range is stored as it is, one below [0] as [0], one
    above [1] as [1]; the pool and the rest of the configuration are
    untouched. *)
Theorem setEmissionPosition_clamps (x y : Qc) (s : ParticleSystem.t) :
  let s' := ParticleSystem.setEmissionPosition x y s in
  let ex := Emission.x (ParticleSystem.emission s') in
  let ey := Emission.y (ParticleSystem.emission s') in
  (0 <= ex /\ ex <= 1) /\ (0 <= ey /\ ey <= 1)
  /\ (0 <= x -> x <= 1 -> ex = x) /\ (x < 0 -> ex = 0) /\ (1 < x -> ex = 1)
  /\ (0 <= y -> y <= 1 -> ey = y) /\ (y < 0 -> ey = 0) /\ (1 < y -> ey = 1)
  /\ ParticleSystem.particlePool s' = ParticleSystem.particlePool s
  /\ ParticleSystem.physics s' = ParticleSystem.physics s
  /\ Emission.spread (ParticleSystem.emission s')
     = Emission.spread (ParticleSystem.emission s).
Proof.
  intros s' ex ey. subst s' ex ey. simpl.
  destruct (clamp_unit x) as (Hx & Hx1 & Hx2 & Hx3).
  destruct (clamp_unit y) as (Hy & Hy1 & Hy2 & Hy3).
  repeat split; try done; tauto.
Qed.

(** ** More on level-of-detail sampling *)

(** X14 (LOD samples are distinct active particles).  Every particle
    [getActiveParticlesLOD] returns is an active particle of the pool.  When
    it downsamples (more active particles than the natural number
    [maxCount]), the first sample is the first active particle and the
    sampled indices increase strictly, so no particle is returned twice. *)
Theorem lod_samples_distinct (maxCount : nat) (s : ParticleSystem.t) :
  let active := ParticleSystem.getActiveParticles s in
  let n := length active in
  let mc := Qc_of_Z (Z.of_nat maxCount) in
  let out := ParticleSystem.getActiveParticlesLOD mc s in
  (forall i p, out !! i = Some (Some p) ->
     p ∈ ParticleSystem.particlePool s /\ Particle.active p = true)
  /\ ((maxCount < n)%nat ->
      ((0 < maxCount)%nat -> ParticleSystem.lodIndex n mc 0 = 0%Z)
      /\ forall i j, (i < j)%nat -> (j < maxCount)%nat ->
           (ParticleSystem.lodIndex n mc i < ParticleSystem.lodIndex n mc j)%Z).
Proof.
  intros active n mc out. split.
  - intros i p Hi.
    assert (Hin : p ∈ active).
    { subst out. unfold ParticleSystem.getActiveParticlesLOD in Hi.
      fold active in Hi. case_decide.
      - rewrite list_lookup_fmap in Hi.
        destruct (active !! i) as [q|] eqn:Hq; [|done]. simpl in Hi.
        injection Hi as <-. by apply list_elem_of_lookup_2 in Hq.
      - rewrite list_lookup_fmap in Hi.
        destruct (seq 0 (loop_bound mc) !! i) as [k|]; [|done]. simpl in Hi.
        injection Hi as Hi. unfold ParticleSystem.at_index in Hi.
        case_decide; [done|]. by apply list_elem_of_lookup_2 in Hi. }
    subst active. unfold ParticleSystem.getActiveParticles in Hin.
    apply list_elem_of_filter in Hin as [Ha Hin]. done.
  - intros Hlt. subst mc. split.
    + intros Hm. rewrite lodIndex_quotient by done.
      change (Z.of_nat 0) with 0%Z. rewrite Z.mul_0_l. apply Z.div_0_l. lia.
    + intros i j Hij Hj. rewrite !lodIndex_quotient by lia.
      assert (Hstep : forall k : nat,
                (Z.of_nat k * Z.of_nat n / Z.of_nat maxCount
                 < Z.of_nat (S k) * Z.of_nat n / Z.of_nat maxCount)%Z).
      { intros k.
        assert (Hle : ((Z.of_nat k * Z.of_nat n + 1 * Z.of_nat maxCount)
                        / Z.of_nat maxCount
                       <= Z.of_nat (S k) * Z.of_nat n / Z.of_nat maxCount)%Z)
          by (apply Z.div_le_mono; lia).
        rewrite Z.div_add in Hle by lia. lia. }
      induction Hij as [|j Hij IH]; [apply Hstep|].
      etrans; [apply IH; lia|apply Hstep].
Qed.

Lemma lod_samples_distinct_witness :
  let s := scenario_engine host_half 0 in
  let n := length (ParticleSystem.getActiveParticles s) in
  (ParticleSystem.lodIndex n (Qc_of_Z (Z.of_nat 2)) 0
   < ParticleSystem.lodIndex n (Qc_of_Z (Z.of_nat 2)) 1)%Z.
Proof.
  intros s n.
  destruct (lod_samples_distinct 2 s) as [_ Hd].
  destruct Hd as [_ Hlt]; [vm_compute; lia|]. apply Hlt; lia.
Defined.

(** ** The magnetic force *)

(** X15 (magnetic acceleration does not depend on the mass).  For a particle
    of non-zero mass at a non-zero distance from the magnet, [applyMagnetism]
    adds to the acceleration the vector to the magnet scaled by
    [strength / ((distance^2 + 100) * distance)]: the mass cancels, so all
    particles at the same place get the same acceleration, directed to the
    magnet when the strength is positive. *)
Theorem magnetism_ignores_mass (H : Host) (s : ParticleSystem.t) (p : Particle.t) :
  let ph := ParticleSystem.physics s in
  let dx := Physics.magnetX ph - Particle.x p in
  let dy := Physics.magnetY ph - Particle.y p in
  let dist := Math_sqrt H (dx * dx + dy * dy) in
  let k := Physics.magnetismStrength ph
           / ((dx * dx + dy * dy + frac 100 1) * dist) in
  Particle.mass p <> 0 -> 0 < dist ->
  let p' := ParticleSystem.applyMagnetism H s p in
  Particle.ax p' = Particle.ax p + k * dx
  /\ Particle.ay p' = Particle.ay p + k * dy
  /\ (0 <= Physics.magnetismStrength ph -> 0 <= k).
Proof.
  intros ph dx dy dist k Hm Hd p'.
  assert (Hsq : 0 < dx * dx + dy * dy + frac 100 1).
  { clear. generalize dx dy. intros a b. qc2q. nra. }
  assert (Hsq' : dx * dx + dy * dy + frac 100 1 <> 0).
  { intros Heq. rewrite Heq in Hsq. by apply (irreflexivity Qclt) in Hsq. }
  assert (Hd' : dist <> 0).
  { intros Heq. rewrite Heq in Hd. by apply (irreflexivity Qclt) in Hd. }
  subst p'. unfold ParticleSystem.applyMagnetism.
  fold ph. fold dx. fold dy. fold dist. rewrite decide_True by done. simpl.
  split; [subst k; field; done|]. split; [subst k; field; done|].
  intros Hs. subst k.
  assert (Hden : 0 < (dx * dx + dy * dy + frac 100 1) * dist).
  { replace 0 with (0 * dist) by ring. by apply Qcmult_lt_compat_r. }
  unfold Qcle, Qclt in *. rewrite this_div, ?this_0 in *.
  apply Qle_shift_div_l; [done|]. lra.
Qed.

Lemma magnetism_ignores_mass_witness :
  let s := ParticleSystem.new (frac 10 1) in
  let p := particle_at (frac 3 1) (frac 4 1) 0 0 in
  Particle.ax (ParticleSystem.applyMagnetism host_zero s p)
  = Particle.ax p
    + frac 1 2 / ((frac (-3) 1 * frac (-3) 1 + frac (-4) 1 * frac (-4) 1 + frac 100 1)
                  * frac 5 1) * frac (-3) 1.
Proof.
  intros s p.
  destruct (magnetism_ignores_mass host_zero s p) as (Hax & _ & _).
  - intros Heq. apply Qc_eq_Qeq in Heq. vm_compute in Heq. discriminate.
  - by vm_compute.
  - rewrite Hax. f_equal; apply Qc_is_canon; by vm_compute.
Defined.

(** ** The hue the renderer paints *)

(** A dividend strictly between [-b] and [b] is its own remainder. *)
Lemma js_rem_small (a b : Qc) :
  0 < b -> - b < a -> a < b -> js_rem a b = a.
Proof.
  intros Hb Hlo Hhi. unfold js_rem.
  set (q := a / b).
  assert (Hq : (-1 < this q /\ this q < 1)%Q).
  { subst q. rewrite this_div.
    unfold Qclt in *. rewrite ?this_opp, ?this_0 in *.
    assert (Hib : (0 < / this b)%Q) by (by apply Qinv_lt_0_compat).
    assert (He : (this b * / this b == 1)%Q) by (field; lra).
    unfold Qdiv. split.
    - assert (Hm : (- this b * / this b < this a * / this b)%Q)
        by (apply Qmult_lt_compat_r; lra).
      lra.
    - assert (Hm : (this a * / this b < this b * / this b)%Q)
        by (apply Qmult_lt_compat_r; lra).
      lra. }
  clearbody q.
  assert (Ht : trunc q = 0%Z).
  { unfold trunc. apply Z.quot_small_iff; [lia|].
    destruct Hq as [H1 H2]. unfold Qlt in H1, H2. simpl in H1, H2. lia. }
  rewrite Ht. apply Qc_is_canon. rewrite this_minus, this_mult, this_of_Z.
  change (inject_Z 0) with 0%Q. ring.
Qed.

(** X16 (the palette mapping).  For a palette with [0 <= hueStart < 360],
    [0 <= hueRange] and [hueStart + hueRange <= 360], as all six built-in
    palettes are, [getPaletteColor] maps a particle hue in [[0, 360)]
    linearly into [[hueStart, hueStart + hueRange]], without wrapping; a
    negative particle hue above [-360] is mapped below [hueStart], outside
    the palette, when the range is not empty. *)
Theorem palette_hue_range (pal : Renderer.palette) (particleHue alpha : Qc) :
  0 <= Renderer.hueStart pal -> Renderer.hueStart pal < frac 360 1 ->
  0 <= Renderer.hueRange pal ->
  Renderer.hueStart pal + Renderer.hueRange pal <= frac 360 1 ->
  let hue := (Renderer.getPaletteColor pal particleHue alpha).1.1.1 in
  (0 <= particleHue -> particleHue < frac 360 1 ->
     hue = Renderer.hueStart pal + particleHue / frac 360 1 * Renderer.hueRange pal
     /\ Renderer.hueStart pal <= hue
     /\ hue <= Renderer.hueStart pal + Renderer.hueRange pal)
  /\ (- frac 360 1 < particleHue -> particleHue < 0 -> 0 < Renderer.hueRange pal ->
      hue < Renderer.hueStart pal).
Proof.
  intros Hs0 Hs1 Hr0 Hsr hue. subst hue. unfold Renderer.getPaletteColor. simpl.
  set (t := particleHue / frac 360 1).
  assert (Ht : (this t * 360 == this particleHue)%Q)
    by (subst t; rewrite this_div, this_frac; field).
  set (st := Renderer.hueStart pal) in *. set (rg := Renderer.hueRange pal) in *.
  split.
  - intros H0 H1.
    assert (Hv : st <= st + t * rg /\ st + t * rg <= st + rg /\ st + t * rg < frac 360 1).
    { clearbody t st rg. qc2q.
      assert (Ht0 : (0 <= this t)%Q) by lra.
      assert (Ht1 : (this t < 1)%Q) by lra.
      repeat split; nra. }
    destruct Hv as (Hv1 & Hv2 & Hv3).
    rewrite js_rem_small; [done|by vm_compute| |done]. clear - Hv1 Hs0. qc_lra.
  - intros H0 H1 Hrg.
    assert (Hv : - frac 360 1 < st + t * rg /\ st + t * rg < st).
    { clearbody t st rg. qc2q.
      assert (Ht0 : (-1 < this t)%Q) by lra.
      assert (Ht1 : (this t < 0)%Q) by lra.
      split; nra. }
    destruct Hv as (Hv1 & Hv2).
    rewrite js_rem_small; [done|by vm_compute|done|]. clear - Hv2 Hs1. qc_lra.
Qed.

Lemma palette_hue_range_witness :
  let fire := Renderer.mkPalette 0 (frac 60 1) (frac 100 1) (frac 50 1) in
  let hue := (Renderer.getPaletteColor fire (frac 180 1) 1).1.1.1 in
  ("fire", fire) ∈ Renderer.colorPalettes
  /\ hue = Renderer.hueStart fire + frac 180 1 / frac 360 1 * Renderer.hueRange fire
  /\ Renderer.hueStart fire <= hue
  /\ hue <= Renderer.hueStart fire + Renderer.hueRange fire.
Proof.
  intros fire hue. split; [apply list_elem_of_In; simpl; tauto|].
  apply (palette_hue_range fire (frac 180 1) 1); by vm_compute.
Defined.

(** ** The value a control change writes *)

(** X17 (range of a MIDI mapping).  For a control-change value in
    [[0, 127]] and a mapping with [min <= max], the value [handleCC] writes
    lies within [[min, max]]; the value [0] gives [min] and [127] gives
    [max]; and a larger control-change value never gives a smaller
    parameter. *)
Theorem mappedValue_range (value min max : Qc) :
  0 <= value -> value <= frac 127 1 -> min <= max ->
  (min <= MIDIController.mappedValue value min max
   /\ MIDIController.mappedValue value min max <= max)
  /\ MIDIController.mappedValue 0 min max = min
  /\ MIDIController.mappedValue (frac 127 1) min max = max
  /\ (forall value', value <= value' ->
        MIDIController.mappedValue value min max
        <= MIDIController.mappedValue value' min max).
Proof.
  intros H0 H1 Hmm. unfold MIDIController.mappedValue.
  assert (Ht : forall v, (this (v / frac 127 1) * 127 == this v)%Q)
    by (intros v; rewrite this_div, this_frac; field).
  split; [|split; [|split]].
  - pose proof (Ht value) as Hv. apply blend_range; [| |done].
    + unfold Qcle in *. rewrite ?this_0, ?this_frac in *. lra.
    + unfold Qcle in *. rewrite ?this_1, ?this_frac in *. lra.
  - pose proof (Ht 0) as Hv. apply Qc_is_canon.
    rewrite this_plus, this_mult, this_minus. rewrite this_0 in Hv. nra.
  - pose proof (Ht (frac 127 1)) as Hv. apply Qc_is_canon.
    rewrite this_plus, this_mult, this_minus. rewrite this_frac in Hv.
    assert (He : (this (frac 127 1 / frac 127 1) == 1)%Q) by lra.
    rewrite He. ring.
  - intros v' Hv. pose proof (Ht value) as E1. pose proof (Ht v') as E2.
    unfold Qcle in *. rewrite !this_plus, !this_mult, !this_minus in *.
    assert (Hd : (this (value / frac 127 1) <= this (v' / frac 127 1))%Q) by lra.
    nra.
Qed.

Lemma mappedValue_range_witness :
  (frac (-180) 1 <= MIDIController.mappedValue (frac 64 1) (frac (-180) 1) (frac 180 1)
   /\ MIDIController.mappedValue (frac 64 1) (frac (-180) 1) (frac 180 1) <= frac 180 1)
  /\ MIDIController.mappedValue 0 (frac (-180) 1) (frac 180 1) = frac (-180) 1
  /\ MIDIController.mappedValue (frac 127 1) (frac (-180) 1) (frac 180 1) = frac 180 1.
Proof.
  destruct (mappedValue_range (frac 64 1) (frac (-180) 1) (frac 180 1))
    as (Hr & H0 & H127 & _); [by vm_compute|by vm_compute|by vm_compute|].
  exact (conj Hr (conj H0 H127)).
Defined.

(** ** The orbital force *)

(** X18 (orbital mode pulls inward).  For a particle of non-zero mass at a
    non-zero distance [dist] from the orbit center, with radius vector
    [(dx, dy)] from the center to the particle, the acceleration that
    [applyOrbital] adds has the radial component
    [-0.01 * (dx^2 + dy^2) / (dist * mass)], whatever the orbital strength,
    and the tangential component
    [orbitalStrength * (dx^2 + dy^2) / (dist * mass)]: the tangential force
    does not push along the radius, and for a positive mass the particle is
    never pushed outward. *)
Theorem orbital_pulls_inward (H : Host) (s : ParticleSystem.t) (p : Particle.t) :
  let ph := ParticleSystem.physics s in
  let dx := Particle.x p - Physics.orbitalCenterX ph * ParticleSystem.width s in
  let dy := Particle.y p - Physics.orbitalCenterY ph * ParticleSystem.height s in
  let dist := Math_sqrt H (dx * dx + dy * dy) in
  Particle.mass p <> 0 -> 0 < dist ->
  let p' := ParticleSystem.applyOrbital H s p in
  let dax := Particle.ax p' - Particle.ax p in
  let day := Particle.ay p' - Particle.ay p in
  dax * dx + day * dy
  = - (frac 1 100 * (dx * dx + dy * dy) / (dist * Particle.mass p))
  /\ day * dx - dax * dy
     = Physics.orbitalStrength ph * (dx * dx + dy * dy) / (dist * Particle.mass p)
  /\ (0 < Particle.mass p -> dax * dx + day * dy <= 0).
Proof.
  intros ph dx dy dist Hm Hd p' dax day.
  assert (Hd' : dist <> 0).
  { intros Heq. rewrite Heq in Hd. by apply (irreflexivity Qclt) in Hd. }
  assert (Hrad : dax * dx + day * dy
                 = - (frac 1 100 * (dx * dx + dy * dy) / (dist * Particle.mass p))).
  { subst dax day p'. unfold ParticleSystem.applyOrbital.
    fold ph. fold dx. fold dy. fold dist. rewrite decide_True by done. simpl.
    field. done. }
  split; [done|]. split.
  - subst dax day p'. unfold ParticleSystem.applyOrbital.
    fold ph. fold dx. fold dy. fold dist. rewrite decide_True by done. simpl.
    field. done.
  - intros Hpos. rewrite Hrad.
    assert (Hden : 0 < dist * Particle.mass p).
    { replace 0 with (0 * Particle.mass p) by ring.
      by apply Qcmult_lt_compat_r. }
    assert (Hnum : 0 <= frac 1 100 * (dx * dx + dy * dy)).
    { clear. generalize dx dy. intros a b. qc2q. nra. }
    assert (Hq : 0 <= frac 1 100 * (dx * dx + dy * dy) / (dist * Particle.mass p)).
    { unfold Qcle, Qclt in *. rewrite this_div, ?this_0 in *.
      apply Qle_shift_div_l; [done|]. lra. }
    clear - Hq. qc_lra.
Qed.

Lemma orbital_pulls_inward_witness :
  let s := ParticleSystem.new (frac 10 1) in
  let p := particle_at (frac 963 1) (frac 544 1) 0 0 in
  let p' := ParticleSystem.applyOrbital host_zero s p in
  (Particle.ax p' - Particle.ax p)
    * (Particle.x p - Physics.orbitalCenterX (ParticleSystem.physics s)
                      * ParticleSystem.width s)
  + (Particle.ay p' - Particle.ay p)
    * (Particle.y p - Physics.orbitalCenterY (ParticleSystem.physics s)
                      * ParticleSystem.height s)
  <= 0.
Proof.
  intros s p p'.
  destruct (orbital_pulls_inward host_zero s p) as (_ & _ & Hin).
  - intros Heq. apply Qc_eq_Qeq in Heq. vm_compute in Heq. discriminate.
  - by vm_compute.
  - apply Hin. by vm_compute.
Defined.

(** ** Inactive slots *)

(** X19 ([update] skips inactive slots).  A slot that is inactive when
    [update] is called keeps its whole content, stale fields included, and
    its index is stored in no bucket of the rebuilt spatial hash. *)
Theorem update_skips_inactive (H : Host) (deltaTime : Qc)
    (audioBands : option (list Qc)) (s : ParticleSystem.t) (j : nat) (p : Particle.t) :
  ParticleSystem.particlePool s !! j = Some p ->
  Particle.active p = false ->
  let s' := ParticleSystem.update H deltaTime audioBands s in
  ParticleSystem.particlePool s' !! j = Some p
  /\ forall key, j ∉ bucket key (ParticleSystem.spatialHash s').
Proof.
  intros Hj Hp s'. split.
  - subst s'. rewrite update_pool. unfold on_active.
    rewrite list_lookup_fmap, Hj. simpl. by rewrite Hp.
  - intros key Hin. apply update_bucket in Hin as (q & Hq & Ha & _). congruence.
Qed.

Lemma update_skips_inactive_witness :
  let s := ParticleSystem.new (frac 3 1) in
  let s' := ParticleSystem.update host_zero 1 None s in
  ParticleSystem.particlePool s' !! 1%nat = Some Particle.new
  /\ forall key, 1%nat ∉ bucket key (ParticleSystem.spatialHash s').
Proof.
  apply (update_skips_inactive host_zero 1 None (ParticleSystem.new (frac 3 1)) 1
           Particle.new); reflexivity.
Defined.

(** ** The cells of the spatial hash *)

Lemma floor_div_iff (x c : Qc) (k : Z) :
  0 < c ->
  Math_floor (x / c) = k
  <-> Qc_of_Z k * c <= x /\ x < (Qc_of_Z k + 1) * c.
Proof.
  intros Hc. unfold Math_floor, Qcle, Qclt in *.
  rewrite ?this_mult, ?this_plus, ?this_of_Z, ?this_0, ?this_1 in *.
  pose proof (this_div x c) as Ediv.
  set (q := this (x / c)) in *. set (X := this x) in *. set (C := this c) in *.
  assert (HiC : (0 < / C)%Q) by (by apply Qinv_lt_0_compat).
  assert (HX : (X == q * C)%Q) by (rewrite Ediv; field; lra).
  pose proof (Qfloor_le q) as Hf. pose proof (Qlt_floor q) as Hg.
  rewrite inject_Z_plus in Hg. change (inject_Z 1) with 1%Q in Hg.
  split.
  - intros <-. split; nra.
  - intros [Hlo Hhi].
    assert (H1 : (inject_Z k <= q)%Q) by nra.
    assert (H2 : (q < inject_Z k + 1)%Q) by nra.
    assert (Ha : (inject_Z k < inject_Z (Qfloor q + 1))%Q)
      by (rewrite inject_Z_plus; change (inject_Z 1) with 1%Q; lra).
    assert (Hb : (inject_Z (Qfloor q) < inject_Z (k + 1))%Q)
      by (rewrite inject_Z_plus; change (inject_Z 1) with 1%Q; lra).
    rewrite <- Zlt_Qlt in Ha, Hb. lia.
Qed.

(** X20 (the cells tile the plane).  With a positive cell size [c],
    [getCellKey(x, y)] is the cell [(kx, ky)] exactly when
    [kx * c <= x < (kx + 1) * c] and [ky * c <= y < (ky + 1) * c]: cells are
    half-open squares of side [c], for negative coordinates too (the cell left
    of the origin is [-1], not [0]). *)
Theorem cells_tile_plane (x y : Qc) (h : SpatialHash.t) (kx ky : Z) :
  0 < SpatialHash.cellSize h ->
  SpatialHash.getCellKey x y h = (kx, ky)
  <-> (Qc_of_Z kx * SpatialHash.cellSize h <= x
       /\ x < (Qc_of_Z kx + 1) * SpatialHash.cellSize h)
      /\ (Qc_of_Z ky * SpatialHash.cellSize h <= y
          /\ y < (Qc_of_Z ky + 1) * SpatialHash.cellSize h).
Proof.
  intros Hc. unfold SpatialHash.getCellKey.
  rewrite <- (floor_div_iff x _ kx Hc), <- (floor_div_iff y _ ky Hc).
  split; [by intros [= -> ->]|by intros [-> ->]].
Qed.

Lemma cells_tile_plane_witness :
  SpatialHash.getCellKey (frac (-1) 2) (frac 75 1) (SpatialHash.new (frac 50 1))
  = ((-1)%Z, 1%Z).
Proof.
  apply (cells_tile_plane (frac (-1) 2) (frac 75 1) (SpatialHash.new (frac 50 1))
           (-1) 1); [by vm_compute|].
  repeat split; by vm_compute.
Defined.

(** ** Degenerate queries *)

(** X21 (queries of radius zero and of negative radius).  With a positive
    cell size, [getNearby(x, y, 0)] returns exactly the bucket of the cell of
    [(x, y)], in insertion order; with a radius of [-cellSize] or less it
    returns nothing, not even the particles of that cell. *)
Theorem getNearby_degenerate (x y radius : Qc) (h : SpatialHash.t) :
  0 < SpatialHash.cellSize h ->
  (radius = 0 ->
   SpatialHash.getNearby x y radius h = bucket (SpatialHash.getCellKey x y h) h)
  /\ (radius <= - SpatialHash.cellSize h -> SpatialHash.getNearby x y radius h = []).
Proof.
  intros Hc. split.
  - intros ->. unfold SpatialHash.getNearby, bucket, SpatialHash.getCellKey.
    assert (Hz : Math_ceil (0 / SpatialHash.cellSize h) = 0%Z).
    { unfold Math_ceil. replace (0 / SpatialHash.cellSize h) with (0 : Qc).
      - reflexivity.
      - unfold Qcdiv. ring. }
    rewrite Hz. simpl. rewrite !Z.add_0_r. by rewrite !app_nil_r.
  - intros Hneg. unfold SpatialHash.getNearby.
    assert (Hz : (Math_ceil (radius / SpatialHash.cellSize h) <= -1)%Z).
    { unfold Math_ceil.
      assert (Hq : (this (radius / SpatialHash.cellSize h) <= inject_Z (-1))%Q).
      { rewrite this_div. unfold Qcle, Qclt in *.
        rewrite ?this_opp, ?this_0 in *.
        change (inject_Z (-1)) with (-1)%Q.
        apply Qle_shift_div_r; [done|]. lra. }
      apply Qceiling_resp_le in Hq. by rewrite Qceiling_Z in Hq. }
    set (R := Math_ceil (radius / SpatialHash.cellSize h)) in *.
    assert (Hspan : seqZ (- R) (2 * R + 1) = []).
    { apply length_zero_iff_nil. rewrite length_seqZ. lia. }
    by rewrite Hspan.
Qed.

Lemma getNearby_degenerate_witness :
  SpatialHash.getNearby (frac 120 1) (frac 80 1) 0 sample_hash = [0%nat]
  /\ SpatialHash.getNearby (frac 120 1) (frac 80 1) (frac (-50) 1) sample_hash = [].
Proof.
  assert (Hc : 0 < SpatialHash.cellSize sample_hash) by (by vm_compute).
  destruct (getNearby_degenerate (frac 120 1) (frac 80 1) 0 sample_hash Hc)
    as [Hzero _].
  destruct (getNearby_degenerate (frac 120 1) (frac 80 1) (frac (-50) 1)
              sample_hash Hc) as [_ Hneg].
  split; [by rewrite Hzero|apply Hneg; by vm_compute].
Defined.

(** ** The size of a particle under audio *)

Lemma handleBoundaries_size (s : ParticleSystem.t) (p : Particle.t) :
  Particle.size (ParticleSystem.handleBoundaries s p) = Particle.size p
  /\ Particle.mass (ParticleSystem.handleBoundaries s p) = Particle.mass p.
Proof.
  unfold ParticleSystem.handleBoundaries, Particle.bounce, Particle.wrap.
  destruct (Physics.bounceEnabled _); [|destruct (Physics.wrapEnabled _)];
    repeat case_decide; done.
Qed.

Lemma applyMode_size (H : Host) (s : ParticleSystem.t) (p : Particle.t) :
  Particle.size (ParticleSystem.applyMode H s p) = Particle.size p
  /\ Particle.mass (ParticleSystem.applyMode H s p) = Particle.mass p.
Proof.
  unfold ParticleSystem.applyMode, ParticleSystem.applyGravity,
    ParticleSystem.applyMagnetism, ParticleSystem.applyTurbulence,
    ParticleSystem.applyOrbital.
  repeat case_decide; done.
Qed.

Lemma update_size (w h dt : Qc) (p : Particle.t) :
  Particle.size (Particle.update w h dt p) = Particle.size p
  /\ Particle.mass (Particle.update w h dt p) = Particle.mass p.
Proof. unfold Particle.update. by destruct (Particle.active p). Qed.

(** X22 (audio scaling compounds).  With a seven-element audio vector,
    [update] multiplies the size of every slot that was active when it was
    called by [1 + 0.2 * audioBands[3]] and leaves its mass as it was: the
    factor applies to the size of the previous frame, so the size is never
    reset, a non-negative mid-band energy never shrinks a non-negative size,
    and the mass no longer equals [0.1 * size] once the size has changed.
    Without a seven-element vector the size is unchanged. *)
Theorem audio_scaling_compounds (H : Host) (deltaTime : Qc)
    (audioBands : option (list Qc)) (s : ParticleSystem.t) (j : nat) (p : Particle.t) :
  ParticleSystem.particlePool s !! j = Some p ->
  Particle.active p = true ->
  let p' := slot j (ParticleSystem.update H deltaTime audioBands s) in
  Particle.mass p' = Particle.mass p
  /\ (forall b, audioBands = Some b -> length b = 7%nat ->
        Particle.size p' = Particle.size p * (1 + band b 3 * frac 1 5)
        /\ (0 <= band b 3 -> 0 <= Particle.size p -> Particle.size p <= Particle.size p'))
  /\ (audioBands = None \/ (exists b, audioBands = Some b /\ length b <> 7%nat) ->
      Particle.size p' = Particle.size p).
Proof.
  intros Hj Hp p'. subst p'. rewrite (slot_update_active _ _ _ _ _ _ Hj Hp).
  unfold ParticleSystem.updateParticle.
  set (s1 := ParticleSystem.begin_frame s).
  set (p1 := ParticleSystem.applyMode H s1 p).
  destruct (applyMode_size H s1 p) as [Hs1 Hm1]. fold p1 in Hs1, Hm1.
  set (p2 := ParticleSystem.applyAudio audioBands p1).
  set (p3 := ParticleSystem.applyDamping s1 p2).
  set (p4 := Particle.update (ParticleSystem.width s1) (ParticleSystem.height s1)
               deltaTime p3).
  destruct (handleBoundaries_size s1 p4) as [-> ->].
  destruct (update_size (ParticleSystem.width s1) (ParticleSystem.height s1)
              deltaTime p3) as [Hs4 Hm4]. fold p4 in Hs4, Hm4.
  rewrite Hs4, Hm4.
  assert (Hs3 : Particle.size p3 = Particle.size p2) by done.
  assert (Hm3 : Particle.mass p3 = Particle.mass p2) by done.
  rewrite Hs3, Hm3. split; [|split].
  - subst p2. unfold ParticleSystem.applyAudio.
    destruct audioBands as [b|]; [|done]. by case_decide.
  - intros b -> Hb.
    assert (Hsz : Particle.size p2 = Particle.size p * (1 + band b 3 * frac 1 5)).
    { subst p2. rewrite applyAudio_seven by done. simpl. by rewrite Hs1. }
    split; [done|]. intros Hmid Hsize. rewrite Hsz.
    clear - Hmid Hsize. generalize dependent (band b 3). intros m Hm.
    generalize dependent (Particle.size p). intros z Hz. qc2q. nra.
  - intros Hskip. subst p2. by rewrite applyAudio_skipped.
Qed.

Lemma audio_scaling_compounds_witness :
  let p := particle_at (frac 100 1) (frac 100 1) 1 1 in
  let b := [0; 1; 0; 1; 0; 1; 0] in
  let p' := slot 0 (ParticleSystem.update host_zero 1 (Some b) (engine_with p)) in
  Particle.mass p' = Particle.mass p
  /\ Particle.size p' = Particle.size p * (1 + band b 3 * frac 1 5).
Proof.
  intros p b p'.
  destruct (audio_scaling_compounds host_zero 1 (Some b) (engine_with p) 0 p)
    as (Hm & Hs & _); [reflexivity|reflexivity|].
  split; [exact Hm|]. by apply (Hs b).
Defined.

(** ** Draws consumed by [emit] *)

Lemma emit_loop_draws (H : Host) (e : Qc) (n : nat) (s : ParticleSystem.t) (c : nat) :
  (ParticleSystem.emit_loop H e n s c).2
  = (c + 9 * (ParticleSystem.activeCount (ParticleSystem.emit_loop H e n s c).1
              - ParticleSystem.activeCount s))%nat.
Proof.
  revert s c. induction n as [|n IH]; intros s c; simpl; [lia|].
  destruct (ParticleSystem.getParticle s) as [i|] eqn:Hg; [|simpl; lia].
  unfold mbind, rand_bind.
  pose proof (spawn_activeCount H e i s c Hg) as Hc.
  pose proof (spawn_length H e i s c) as Hl.
  destruct (spawn_spec H e i s c) as (p' & Hs & _).
  destruct (ParticleSystem.spawn H e i s c) as [s' c'] eqn:Hsp.
  injection Hs as _ ->. simpl in Hc, Hl.
  rewrite IH. rewrite emit_loop_activeCount, Hc, Hl.
  pose proof (activeCount_le s).
  assert (Hfree : (ParticleSystem.activeCount s
                   < length (ParticleSystem.particlePool s))%nat).
  { destruct (getParticle_Some s i Hg) as (q & Hq & Ha).
    destruct (decide (ParticleSystem.activeCount s
                      = length (ParticleSystem.particlePool s))) as [Heq|]; [|lia].
    apply all_active_count in Heq. rewrite Forall_lookup in Heq.
    specialize (Heq i q Hq). simpl in Heq. congruence. }
  lia.
Qed.

(** X23 (draws consumed by [emit]).  [emit] calls [Math.random] exactly nine
    times for each particle it spawns and not at all otherwise: the cursor
    into the tape of draws advances by nine times the number of slots the
    call activated. *)
Theorem emit_consumes_nine_draws (H : Host) (count e : Qc) (s : ParticleSystem.t)
    (c : nat) :
  let r := ParticleSystem.emit H count e s c in
  r.2 = (c + 9 * (ParticleSystem.activeCount r.1 - ParticleSystem.activeCount s))%nat
  /\ (ParticleSystem.activeCount r.1 - ParticleSystem.activeCount s
      = Nat.min (length (ParticleSystem.particlePool s) - ParticleSystem.activeCount s)
                (actualCount count e s))%nat.
Proof.
  intros r. subst r. unfold ParticleSystem.emit. split; [apply emit_loop_draws|].
  rewrite emit_loop_activeCount. fold (actualCount count e s).
  pose proof (activeCount_le s). lia.
Qed.

(** ** An unknown physics mode *)

(** X24 (an unknown mode applies no force).  When [physics.mode] is none of
    the four mode names, the mode dispatch of [update] leaves the particle as
    it is; with no audio vector, no pending acceleration and the bounce policy
    off, a frame then only damps the velocity of an active slot:
    [v' = v * damping]. *)
Theorem unknown_mode_no_force (H : Host) (deltaTime : Qc) (s : ParticleSystem.t)
    (j : nat) (p : Particle.t) :
  Physics.mode (ParticleSystem.physics s) ∉ ParticleSystem.validModes ->
  ParticleSystem.particlePool s !! j = Some p ->
  Particle.active p = true ->
  Particle.ax p = 0 -> Particle.ay p = 0 ->
  Physics.bounceEnabled (ParticleSystem.physics s) = false ->
  let p' := slot j (ParticleSystem.update H deltaTime None s) in
  ParticleSystem.applyMode H s p = p
  /\ Particle.vx p' = Particle.vx p * Physics.damping (ParticleSystem.physics s)
  /\ Particle.vy p' = Particle.vy p * Physics.damping (ParticleSystem.physics s).
Proof.
  intros Hmode Hj Hp Hax Hay Hb p'.
  assert (Hid : forall s0, Physics.mode (ParticleSystem.physics s0)
                           = Physics.mode (ParticleSystem.physics s) ->
                           ParticleSystem.applyMode H s0 p = p).
  { intros s0 Hm. unfold ParticleSystem.applyMode. rewrite Hm.
    unfold ParticleSystem.validModes in Hmode.
    rewrite !not_elem_of_cons in Hmode. destruct Hmode as (? & ? & ? & ? & _).
    by repeat (rewrite decide_False by done). }
  split; [by apply Hid|].
  subst p'. rewrite (slot_update_active _ _ _ _ _ _ Hj Hp).
  unfold ParticleSystem.updateParticle. rewrite Hid by done.
  unfold ParticleSystem.handleBoundaries. simpl. rewrite Hb.
  assert (Hw : forall q, Particle.vx (Particle.wrap (ParticleSystem.width s)
                                        (ParticleSystem.height s) q) = Particle.vx q
                         /\ Particle.vy (Particle.wrap (ParticleSystem.width s)
                                           (ParticleSystem.height s) q) = Particle.vy q).
  { intros q. unfold Particle.wrap. repeat case_decide; done. }
  assert (Hupd : forall q, Particle.active q = true ->
            Particle.ax q = 0 -> Particle.ay q = 0 ->
            Particle.vx (Particle.update (ParticleSystem.width s)
                           (ParticleSystem.height s) deltaTime q) = Particle.vx q
            /\ Particle.vy (Particle.update (ParticleSystem.width s)
                              (ParticleSystem.height s) deltaTime q) = Particle.vy q).
  { intros q Hq Hqx Hqy. unfold Particle.update. rewrite Hq. simpl.
    rewrite Hqx, Hqy. split; ring. }
  set (p3 := ParticleSystem.applyDamping (ParticleSystem.begin_frame s) p).
  destruct (Hupd p3) as [Hvx Hvy]; [done|done|done|].
  destruct (Physics.wrapEnabled (ParticleSystem.physics s)).
  - destruct (Hw (Particle.update (ParticleSystem.width s) (ParticleSystem.height s)
                    deltaTime p3)) as [-> ->].
    by rewrite Hvx, Hvy.
  - by rewrite Hvx, Hvy.
Qed.

Lemma unknown_mode_no_force_witness :
  let s := ParticleSystem.set_physics
             (ParticleSystem.set_mode "vortex"
                (ParticleSystem.physics (engine_with (particle_at 0 0 1 1))))
             (engine_with (particle_at 0 0 1 1)) in
  let p' := slot 0 (ParticleSystem.update host_zero 1 None s) in
  ParticleSystem.applyMode host_zero s (particle_at 0 0 1 1) = particle_at 0 0 1 1
  /\ Particle.vx p' = 1 * frac 99 100
  /\ Particle.vy p' = 1 * frac 99 100.
Proof.
  intros s p'.
  apply (unknown_mode_no_force host_zero 1 s 0 (particle_at 0 0 1 1));
    try reflexivity.
  unfold ParticleSystem.validModes. simpl.
  rewrite !not_elem_of_cons. repeat split; try discriminate. apply not_elem_of_nil.
Defined.
